(** * Company import engine (src/index.js): model and verification

    The development follows the source file top to bottom:
    - [JS]      loosely typed scalars, field maps and truthiness;
    - [Store]   the persisted collection behind the [Company] model, with
                an operation log and injected store failures;
    - [Engine]  [importCompanies], one Rocq branch per [case] of the switch;
    - [Api]     the three route handlers and runs of requests;
    - theorems about the reconciliation policy, the counters, the identity
      invariant and the behaviour under store failures. *)

From stdpp Require Import gmap strings list fin_maps.
From Stdlib Require Import ZArith DecimalString DecimalN DecimalZ.

Local Open Scope string_scope.
Local Open Scope list_scope.
Local Open Scope nat_scope.

(** ** Scalars and field maps *)

Module JS.

(** The scalars a parsed row can hold.  [undefined] is not a stored value:
    it is what reading an absent key gives, so a property read
    [o[key]] is the lookup [o !! key : option value]. *)
Inductive value : Type :=
  | VNull
  | VBool (b : bool)
  | VNum (n : Z)
  | VStr (s : string).

#[global] Instance value_eq_dec : EqDecision value.
Proof. solve_decision. Defined.

(** JavaScript's ToBoolean on a scalar. *)
Definition truthy (v : value) : bool :=
  match v with
  | VNull => false
  | VBool b => b
  | VNum n => negb (n =? 0)%Z
  | VStr s => negb (String.eqb s "")
  end.

(** ToBoolean of a property read on a plain field map (a parsed row, a
    stored document's own fields): an absent key reads [undefined]. *)
Definition truthy_at (o : gmap string value) (key : string) : bool :=
  match o !! key with
  | Some v => truthy v
  | None => false
  end.

(** [String.prototype.includes] *)
Fixpoint includes (s sub : string) : bool :=
  if String.prefix sub s then true
  else match s with
       | EmptyString => false
       | String _ rest => includes rest sub
       end.

End JS.

Export JS.

(** A field map: one parsed row, or one persisted document. *)
Abbreviation obj := (gmap string value).

(** ** The persisted store *)

Module Store.

(** Outcome of an awaited call: a value, or a thrown error with its
    message. *)
Inductive result (A : Type) : Type :=
  | Ok (a : A)
  | Err (msg : string).
Arguments Ok {A} a.
Arguments Err {A} msg.

(** The calls the program issues on the [Company] model. *)
Inductive op : Type :=
  | OFindOne (email : value)
  | OCreate (doc : obj)
  | OUpdateOne (email : value) (set : obj)
  | ODeleteOne (email : value)
  | OFind.

#[global] Instance op_eq_dec : EqDecision op.
Proof. solve_decision. Defined.

(** The world the handlers run in: the collection in store order, the
    calls issued so far, and the failure schedule of the connection (one
    entry per future call, [true] = that call is rejected; an exhausted
    schedule means no further failure). *)
Record world : Type := World {
  docs : list obj;
  log : list op;
  faults : list bool;
}.

(** Awaited computations: state passing over the world; an error stops
    the rest of the computation and keeps the world reached so far. *)
Definition M (A : Type) : Type := world → result A * world.

Definition ret {A} (a : A) : M A := λ w, (Ok a, w).

Definition bind {A B} (m : M A) (k : A → M B) : M B :=
  λ w, match m w with
       | (Ok a, w') => k a w'
       | (Err msg, w') => (Err msg, w')
       end.

Notation "'let*' x := m 'in' k" := (bind m (λ x, k))
  (at level 10, x name, m at level 100, k at level 200).

(** Modelled from the spec: the store client (Mongoose on MongoDB) is an
    external collaborator, "a key-value-by-unique-field store with
    find/insert/update primitives" (spec 1, 6).  A call is logged, then
    either rejected by the connection or run on the collection. *)
Definition call {A} (o : op) (act : list obj → result A * list obj) : M A :=
  λ w, match faults w with
       | true :: fs =>
           (Err "store operation failed",
            {| docs := docs w; log := log w ++ [o]; faults := fs |})
       | fs =>
           let '(r, ds) := act (docs w) in
           (r, {| docs := ds; log := log w ++ [o]; faults := tail fs |})
       end.

(** The query [{ email: e }]. *)
Definition has_email (e : value) (d : obj) : Prop := d !! "email" = Some e.

#[global] Instance has_email_dec e d : Decision (has_email e d).
Proof. unfold has_email. apply _. Defined.

(** The types a schema path is declared with; the source uses [String]
    only. *)
Inductive typeName : Type :=
  | TString.

(** The declaration of a schema path: its type and the options the
    program sets. *)
Record schemaType : Type := SchemaType {
  type : typeName;
  required : bool;
  unique : bool;
}.

(** A path declared as plain [String]. *)
Definition plainString : schemaType :=
  {| type := TString; required := false; unique := false |}.

(** [companySchema] as declared in the source. *)
Definition companySchema : list (string * schemaType) :=
  [ ("name", plainString);
    ("industry", plainString);
    ("location", plainString);
    ("email", {| type := TString; required := true; unique := true |});
    ("phone", plainString) ].

(** The declaration of [key], if the schema declares it. *)
Fixpoint schema_path (schema : list (string * schemaType)) (key : string)
    : option schemaType :=
  match schema with
  | [] => None
  | (path, st) :: rest =>
      if String.eqb path key then Some st else schema_path rest key
  end.

(** The declared paths: [name], [industry], [location], [email], [phone]. *)
Definition schema_paths : list string := companySchema.*1.

(** The decimal form of an integer, as JavaScript prints a number of the
    safe integer range. *)
Definition numberToString (n : Z) : string := NilEmpty.string_of_int (Z.to_int n).

(** The cast to [String] the client applies to every value it writes or
    queries under a [String] path: a string is kept, a number or a boolean
    becomes its printed form, [null] stays [null]. *)
Definition castString (v : value) : value :=
  match v with
  | VNull => VNull
  | VBool true => VStr "true"
  | VBool false => VStr "false"
  | VNum n => VStr (numberToString n)
  | VStr s => VStr s
  end.

Definition castTo (t : typeName) (v : value) : value :=
  match t with
  | TString => castString v
  end.

(** What the client keeps of a field map it is asked to write (schemas
    are strict): the fields the schema declares, each cast to its declared
    type; every other field is dropped.  The identifier [_id] and the
    version key [__v], which the store manages on its own, are not part of
    the modelled documents. *)
Definition castDoc (d : obj) : obj :=
  map_imap (λ key v, (λ st, castTo (type st) v) <$> schema_path companySchema key) d.

(** The first document matching [{ email: e }], with its position; the
    client casts the queried value as the [email] path declares. *)
Definition lookup_email (e : value) (ds : list obj) : option (nat * obj) :=
  list_find (has_email (castString e)) ds.

(** Modelled from the spec: the [Record?] that [findOne] returns (spec 6).
    In the program it is a document object of the client library, not a
    plain field map: beside the declared paths it carries the library's
    own members (the identifiers [id] and [_id], its methods), and a field
    outside the schema cannot be read on it.  [member_truthy key] tells
    whether the member named [key] reads truthy; the development holds
    for every such assignment. *)
Class Document : Type := member_truthy : string → bool.

(** ToBoolean of [existingCompany[key]]: a declared path reads the stored
    field, cast as declared; any other key reads the library member of
    that name. *)
Definition reads_truthy `{Document} (existingCompany : obj) (key : string) : bool :=
  if bool_decide (key ∈ schema_paths) then
    match existingCompany !! key with
    | Some v => truthy (castString v)
    | None => false
    end
  else member_truthy key.

Definition required_paths (schema : list (string * schemaType)) : list string :=
  (filter (λ p, required p.2 = true) schema).*1.

Definition unique_paths (schema : list (string * schemaType)) : list string :=
  (filter (λ p, unique p.2 = true) schema).*1.

(** Does a document of the collection carry the same entry as [d] at
    [path]?  (What a unique index on [path] forbids.) *)
Definition path_taken (path : string) (d : obj) (ds : list obj) : bool :=
  bool_decide (Exists (λ x, x !! path = d !! path) ds).

(** Modelled from the spec: [findOne(identity) -> Record?]. *)
Definition findOne (e : value) : M (option obj) :=
  call (OFindOne e) (λ ds, (Ok (snd <$> lookup_email e ds), ds)).

(** Modelled from the spec: [insert(fields) -> Record], under
    [companySchema]: the field map is cast to the schema, the required
    paths must then hold a non-empty string and the unique paths must not
    collide.  The new document goes last in store order. *)
Definition create (d : obj) : M unit :=
  call (OCreate d) (λ ds,
    let doc := castDoc d in
    if negb (forallb (truthy_at doc) (required_paths companySchema)) then
      (Err "Company validation failed", ds)
    else if existsb (λ path, path_taken path doc ds) (unique_paths companySchema)
    then (Err "E11000 duplicate key error", ds)
    else (Ok (), ds ++ [doc])).

(** Modelled from the spec: [updateFields(identity, fields) -> void], the
    [$set] update under [companySchema]: the given fields are cast to the
    schema (fields outside it are dropped) and replace or extend those of
    the first matching document, every other field is kept.  Changing a
    unique path of the document to an entry another document holds
    violates the unique index. *)
Definition updateOne (e : value) (set : obj) : M unit :=
  call (OUpdateOne e set) (λ ds,
    match lookup_email e ds with
    | None => (Ok (), ds)
    | Some (i, d) =>
        let d' := castDoc set ∪ d in
        if existsb
             (λ path, bool_decide (d' !! path ≠ d !! path) && path_taken path d' ds)
             (unique_paths companySchema)
        then (Err "E11000 duplicate key error", ds)
        else (Ok (), <[i := d']> ds)
    end).

(** Modelled from the spec: [deleteOne(identity) -> bool (deleted)]; the
    result is [deletedCount]. *)
Definition deleteOne (e : value) : M nat :=
  call (ODeleteOne e) (λ ds,
    match lookup_email e ds with
    | None => (Ok 0, ds)
    | Some (i, _) => (Ok 1, delete i ds)
    end).

(** Modelled from the spec: [findAll(projection) -> sequence<Record>]:
    the modelled fields of every document that the projection names (the
    identifier [_id], which the store adds to every entry, is outside the
    modelled documents). *)
Definition find (projection : list string) : M (list obj) :=
  call OFind (λ ds,
    (Ok ((λ d : obj, filter (λ kv, kv.1 ∈ projection) d) <$> ds), ds)).

End Store.

Export Store.

(** ** The import engine *)

Module Engine.

(** [{ inserted, updated, skipped }] *)
Record counters : Type := Counters {
  inserted : nat;
  updated : nat;
  skipped : nat;
}.

#[global] Instance counters_eq_dec : EqDecision counters.
Proof. solve_decision. Defined.

Definition inserted_incr (c : counters) : counters :=
  {| inserted := S (inserted c); updated := updated c; skipped := skipped c |}.
Definition updated_incr (c : counters) : counters :=
  {| inserted := inserted c; updated := S (updated c); skipped := skipped c |}.
Definition skipped_incr (c : counters) : counters :=
  {| inserted := inserted c; updated := updated c; skipped := S (skipped c) |}.

Section WithDocument.

Context {D : Document}.

(** The inner loop of the two no-overwrite cases:
    [for (const key in company)
       if (!existingCompany[key] && company[key]) update[key] = company[key];]
    starting from [update = {}]; [existingCompany] is the document
    [findOne] returned. *)
Definition mergeFill (existingCompany company : obj) : obj :=
  map_fold
    (λ key v update,
       if negb (reads_truthy existingCompany key) && truthy v
       then <[key := v]> update
       else update)
    ∅ company.

(** [Object.keys(update).length > 0], then the [$set] write or the skip. *)
Definition applyMergeFill (e : value) (existingCompany company : obj)
    (c : counters) : M counters :=
  let update := mergeFill existingCompany company in
  if (0 <? size update)%nat then
    let* _ := updateOne e update in
    ret (updated_incr c)
  else ret (skipped_incr c).

(** One iteration of the [for (const company of companies)] loop. *)
Definition importCompany (importMode : string) (company : obj)
    (c : counters) : M counters :=
  match company !! "email" with
  | None => ret (skipped_incr c)
  | Some e =>
    if negb (truthy e) then ret (skipped_incr c)
    else
      let* existingCompany := findOne e in
      if String.eqb importMode "create_new" then
        match existingCompany with
        | None => let* _ := create company in ret (inserted_incr c)
        | Some _ => ret (skipped_incr c)
        end
      else if String.eqb importMode "create_update_no_overwrite" then
        match existingCompany with
        | None => let* _ := create company in ret (inserted_incr c)
        | Some existing => applyMergeFill e existing company c
        end
      else if String.eqb importMode "create_update_overwrite" then
        match existingCompany with
        | None => let* _ := create company in ret (inserted_incr c)
        | Some _ => let* _ := updateOne e company in ret (updated_incr c)
        end
      else if String.eqb importMode "update_no_overwrite" then
        match existingCompany with
        | Some existing => applyMergeFill e existing company c
        | None => ret (skipped_incr c)
        end
      else if String.eqb importMode "update_overwrite" then
        match existingCompany with
        | Some _ => let* _ := updateOne e company in ret (updated_incr c)
        | None => ret (skipped_incr c)
        end
      else ret c
  end.

(** The loop, threading the three counters. *)
Fixpoint importLoop (importMode : string) (companies : list obj)
    (c : counters) : M counters :=
  match companies with
  | [] => ret c
  | company :: rest =>
      let* c' := importCompany importMode company c in
      importLoop importMode rest c'
  end.

Definition importCompanies (companies : list obj) (importMode : string)
    : M counters :=
  importLoop importMode companies
    {| inserted := 0; updated := 0; skipped := 0 |}.

End WithDocument.

End Engine.

Export Engine.

(** ** The route handlers *)

Module Api.

(** [req.file] as multer leaves it. *)
Record upload : Type := Upload {
  mimetype : string;
  path : string;
}.

(** The request of [POST /api/companies/import]: [req.file] and
    [req.body.importMode], each possibly absent. *)
Record importRequest : Type := ImportRequest {
  file : option upload;
  importMode : option string;
}.

Inductive payload : Type :=
  | Message (message : string)
  | Success (summary : counters)
  | Companies (companies : list obj).

Record response : Type := Response {
  status : nat;
  body : payload;
}.

Inductive request : Type :=
  | PostImport (req : importRequest)
  | GetCompanies
  | DeleteCompany (email : string).

Section Handlers.

Context {D : Document}.

(** The outcome of the source's [processFile (filePath, isExcel)]: the
    rows of the uploaded file in order, or the parser's error.  The
    spreadsheet and CSV parsers and the file system are external, so the
    handlers are stated for any such function. *)
Variable processFile : string → bool → result (list obj).

(** [app.post('/api/companies/import', ...)]; [!importMode] holds of an
    absent field and of the empty string.  Removing the uploaded file after
    the run ([fs.unlinkSync]) acts on the file system only and is left out. *)
Definition postImport (req : importRequest) (w : world) : response * world :=
  match file req with
  | None => ({| status := 400; body := Message "No file uploaded" |}, w)
  | Some f =>
    match importMode req with
    | None => ({| status := 400; body := Message "Import mode is required" |}, w)
    | Some mode =>
      if String.eqb mode "" then
        ({| status := 400; body := Message "Import mode is required" |}, w)
      else
        let isExcel :=
          includes (mimetype f) "excel" || includes (mimetype f) "spreadsheet" in
        match processFile (path f) isExcel with
        | Err msg => ({| status := 500; body := Message msg |}, w)
        | Ok companies =>
          match importCompanies companies mode w with
          | (Ok summary, w') => ({| status := 200; body := Success summary |}, w')
          | (Err msg, w') => ({| status := 500; body := Message msg |}, w')
          end
        end
    end
  end.

(** [app.get('/api/companies', ...)] *)
Definition getCompanies (w : world) : response * world :=
  match find ["name"; "industry"; "email"; "phone"] w with
  | (Ok companies, w') => ({| status := 200; body := Companies companies |}, w')
  | (Err msg, w') => ({| status := 500; body := Message msg |}, w')
  end.

(** [app.delete('/api/companies/:email', ...)] *)
Definition deleteCompany (email : string) (w : world) : response * world :=
  match deleteOne (VStr email) w with
  | (Ok deletedCount, w') =>
      if (deletedCount =? 0)%nat then
        ({| status := 404; body := Message "Company not found" |}, w')
      else
        ({| status := 200; body := Message "Company deleted successfully" |}, w')
  | (Err msg, w') => ({| status := 500; body := Message msg |}, w')
  end.

Definition handle (r : request) (w : world) : response * world :=
  match r with
  | PostImport req => postImport req w
  | GetCompanies => getCompanies w
  | DeleteCompany email => deleteCompany email w
  end.

(** The world after serving a sequence of requests one after the other. *)
Fixpoint serve (rs : list request) (w : world) : world :=
  match rs with
  | [] => w
  | r :: rest => serve rest (handle r w).2
  end.

End Handlers.

End Api.

Export Api.

(** ** The upload storage *)

Module Upload.

(** The decimal digits of a non-negative integer, as a template literal
    prints [Date.now()]. *)
Definition decimal (n : N) : string := NilEmpty.string_of_uint (N.to_uint n).

(** The [filename] callback of the multer disk storage:
    [`${Date.now()}-${file.originalname}`], for the clock reading [now]. *)
Definition filename (now : N) (originalname : string) : string :=
  (decimal now ++ "-" ++ originalname)%string.

(** The character [-] (code 45). *)
Definition dash : Ascii.ascii :=
  Ascii.Ascii true false true true false true false false.

(** No character of the string is a dash. *)
Fixpoint dashless (s : string) : bool :=
  match s with
  | EmptyString => true
  | String a rest => negb (Ascii.eqb a dash) && dashless rest
  end.

End Upload.

Export Upload.

(** ** Predicates used by the statements *)

(** A connection that rejects none of the calls still to come. *)
Definition healthy (w : world) : Prop := Forall (λ b, b = false) (faults w).

#[global] Instance healthy_dec w : Decision (healthy w).
Proof. unfold healthy. apply _. Defined.

(** The identity invariant: no two persisted documents share a non-empty
    [email]. *)
Definition unique_emails (ds : list obj) : Prop :=
  ∀ i j d1 d2 e,
    ds !! i = Some d1 → ds !! j = Some d2 →
    d1 !! "email" = Some e → d2 !! "email" = Some e →
    truthy e = true → i = j.

(** The five recognized import modes. *)
Definition recognized (importMode : string) : Prop :=
  importMode ∈ ["create_new"; "create_update_no_overwrite";
                "create_update_overwrite"; "update_no_overwrite";
                "update_overwrite"].

#[global] Instance recognized_dec m : Decision (recognized m).
Proof. unfold recognized. apply _. Defined.

(** Does a call change or remove a document that is already persisted? *)
Definition touches_existing (o : op) : bool :=
  match o with
  | OUpdateOne _ _ | ODeleteOne _ => true
  | OFindOne _ | OCreate _ | OFind => false
  end.

(** The collection only grew at its end, and no call issued in between
    was aimed at a persisted document. *)
Definition appended_only (w w' : world) : Prop :=
  ∃ added issued,
    docs w' = docs w ++ added ∧ log w' = log w ++ issued ∧
    Forall (λ o, touches_existing o = false) issued.

(** Every field that held a truthy value holds the same value afterwards,
    in the document at the same position. *)
Definition truthy_fields_kept (ds ds' : list obj) : Prop :=
  ∀ i d key v,
    ds !! i = Some d → d !! key = Some v → truthy v = true →
    ∃ d', ds' !! i = Some d' ∧ d' !! key = Some v.

(** The identity invariant is carried from one world to the next. *)
Definition keeps_unique (w w' : world) : Prop :=
  unique_emails (docs w) → unique_emails (docs w').

(** ** Example data *)

(** The rows and the stored document of the specification's scenarios
    A to D. *)
Definition rowA : obj := {[ "email" := VStr "a@x.com"; "name" := VStr "A" ]}.
Definition storedB : obj :=
  {[ "email" := VStr "a@x.com"; "name" := VStr ""; "industry" := VStr "Tech" ]}.
Definition rowB : obj :=
  {[ "email" := VStr "a@x.com"; "name" := VStr "A";
     "industry" := VStr "Retail" ]}.
Definition rowD : obj := {[ "name" := VStr "No identity" ]}.

Definition rowC : obj := {[ "email" := VStr "c@x.com"; "name" := VStr "C" ]}.

(** A second row for the email of [rowB], with another name. *)
Definition rowB2 : obj :=
  {[ "email" := VStr "a@x.com"; "name" := VStr "A2"; "phone" := VStr "555" ]}.

(** A row with a column the schema does not declare. *)
Definition rowWeb : obj :=
  {[ "email" := VStr "a@x.com"; "website" := VStr "x.com" ]}.

(** A row with a numeric cell, as a spreadsheet gives it. *)
Definition rowNum : obj :=
  {[ "email" := VStr "a@x.com"; "phone" := VNum 5551234 ]}.

(** A row with a column named as the identifier every document carries. *)
Definition rowId : obj := {[ "email" := VStr "a@x.com"; "id" := VStr "7" ]}.

(** The members the examples need: the identifiers [id] and [_id] read
    truthy on every document; no example row names another member. *)
Definition sampleDocument : Document := λ key, bool_decide (key ∈ ["_id"; "id"]).

(** A collection behind a connection with no failure scheduled and no
    call issued yet. *)
Definition fresh (ds : list obj) : world :=
  {| docs := ds; log := []; faults := [] |}.

(** The world after one logged lookup that changed nothing. *)
Definition looked_up (e : value) (w : world) : world :=
  {| docs := docs w; log := log w ++ [OFindOne e]; faults := tail (faults w) |}.

Definition zero : counters := {| inserted := 0; updated := 0; skipped := 0 |}.

Definition total (c : counters) : nat := inserted c + updated c + skipped c.

(** A response that reports a failure with a message. *)
Definition failed (r : response) : Prop :=
  400 ≤ status r ∧ ∃ msg, body r = Message msg ∧ msg ≠ "".

Definition csvUpload : upload :=
  {| mimetype := "text/csv"; path := "/tmp/uploads/1700000000000-a.csv" |}.

(** A connection that serves three calls and rejects the fourth. *)
Definition failing_fourth : world :=
  {| docs := []; log := []; faults := [false; false; false; true] |}.

(** A connection that serves the lookup and rejects the write after it. *)
Definition failing_write (ds : list obj) : world :=
  {| docs := ds; log := []; faults := [false; true] |}.

(** ** Counts, frames and call discipline *)

Definition is_lookup (o : op) : bool :=
  match o with OFindOne _ => true | _ => false end.
Definition is_create (o : op) : bool :=
  match o with OCreate _ => true | _ => false end.
Definition is_update (o : op) : bool :=
  match o with OUpdateOne _ _ => true | _ => false end.

(** How many of the calls satisfy [f]. *)
Definition count_ops (f : op → bool) (l : list op) : nat :=
  length (List.filter f l).

(** How many rows carry a usable (truthy) [email]. *)
Definition with_email (companies : list obj) : nat :=
  length (List.filter (λ company : obj, truthy_at company "email") companies).

(** Every document stays at its position and keeps its [email] entry. *)
Definition identities_kept (ds ds' : list obj) : Prop :=
  ∀ i d, ds !! i = Some d →
         ∃ d', ds' !! i = Some d' ∧ d' !! "email" = d !! "email".

(** The collection kept its size and no insert was issued. *)
Definition nothing_inserted (w w' : world) : Prop :=
  length (docs w') = length (docs w) ∧
  ∃ issued, log w' = log w ++ issued ∧ count_ops is_create issued = 0.

(** The collection is the same and every call issued was a lookup. *)
Definition only_lookups (w w' : world) : Prop :=
  docs w' = docs w ∧
  ∃ issued, log w' = log w ++ issued ∧ Forall (λ o, is_lookup o = true) issued.

(** Does the row's email find a document in the collection? *)
Definition matched (company : obj) (ds : list obj) : bool :=
  match company !! "email" with
  | Some e => bool_decide (is_Some (lookup_email e ds))
  | None => false
  end.

(** A sequence of calls in which every insert and every update comes
    right after the lookup of the email it writes under. *)
Inductive lookup_then_write : list op → Prop :=
  | ltw_nil : lookup_then_write []
  | ltw_lookup e rest :
      lookup_then_write rest → lookup_then_write (OFindOne e :: rest)
  | ltw_create e (d : obj) rest :
      d !! "email" = Some e →
      lookup_then_write rest →
      lookup_then_write (OFindOne e :: OCreate d :: rest)
  | ltw_update e set rest :
      lookup_then_write rest →
      lookup_then_write (OFindOne e :: OUpdateOne e set :: rest).

(** The calls issued between two worlds follow that discipline. *)
Definition writes_guarded (w w' : world) : Prop :=
  ∃ issued, log w' = log w ++ issued ∧ lookup_then_write issued.

(** One of the calls was rejected by the connection: the failure schedule
    of [w] holds [true] at the position of one of the [issued] calls. *)
Definition rejected (w : world) (issued : list op) : Prop :=
  ∃ n, n < length issued ∧ faults w !! n = Some true.

(** A computation that returns only if the connection rejected none of
    the calls it issued; the calls consume the failure schedule in order. *)
Definition unrejected {A} (m : M A) : Prop :=
  ∀ w a w', m w = (Ok a, w') →
    ∃ issued, log w' = log w ++ issued ∧
              faults w' = drop (length issued) (faults w) ∧
              ∀ n, n < length issued → faults w !! n ≠ Some true.


(** Every schema field the row provides is stored, in string form. *)
Definition provides (company d : obj) : Prop :=
  ∀ key v, key ∈ schema_paths → company !! key = Some v →
           d !! key = Some (castString v).

(** [sub] occurs in [s]. *)
Definition occurs_in (sub s : string) : Prop :=
  ∃ pre post, s = (pre ++ sub ++ post)%string.

(** ** Statements about the engine *)

Section Statements.

Context {D : Document}.

(** What the merge-fill loop puts in the change set: a field present and
    truthy in the incoming record that reads falsy on the existing
    document. *)
Definition fillable (existing company : obj) (key : string) (v : value) : Prop :=
  company !! key = Some v ∧ truthy v = true ∧ reads_truthy existing key = false.

(** C1 as the specification words it: under the no-overwrite modes every
    field present and truthy in the incoming record and falsy on the
    existing persisted record is set on that record. *)
Definition merge_fill_sets_every_gap : Prop :=
  ∀ (importMode : string) (company : obj) (e : value) (i : nat)
    (existing : obj) (c : counters) (w : world),
    healthy w → company !! "email" = Some e → truthy e = true →
    lookup_email e (docs w) = Some (i, existing) →
    importMode ∈ ["create_update_no_overwrite"; "update_no_overwrite"] →
    ∀ key v, company !! key = Some v → truthy v = true →
             truthy_at existing key = false →
      ∃ d', docs (importCompany importMode company c w).2 !! i = Some d' ∧
            is_Some (d' !! key).

(** C2 as the specification words it: under the overwrite modes every
    field the incoming record provides exactly equals the stored value
    afterwards. *)
Definition overwrite_stores_row_as_given : Prop :=
  ∀ (importMode : string) (company : obj) (e : value) (i : nat)
    (existing : obj) (c : counters) (w : world),
    healthy w → company !! "email" = Some e → truthy e = true →
    lookup_email e (docs w) = Some (i, existing) →
    importMode ∈ ["create_update_overwrite"; "update_overwrite"] →
    ∀ key v, company !! key = Some v →
      ∃ d', docs (importCompany importMode company c w).2 !! i = Some d' ∧
            d' !! key = Some v.

(** C6 as the specification words it: for any mode whatsoever, a run that
    returns counters returns counters that add up to the input length. *)
Definition counters_conserved_for_any_mode : Prop :=
  ∀ (companies : list obj) (importMode : string) (w w' : world) (c : counters),
    importCompanies companies importMode w = (Ok c, w') →
    total c = length companies.

(** C5 as the specification words it: a request without a file, without a
    mode, or with a mode outside the five recognized ones is answered with
    an error and leaves the world as it was. *)
Definition rejects_unusable_requests : Prop :=
  ∀ (processFile : string → bool → result (list obj)) (req : importRequest)
    (w : world),
    file req = None ∨ importMode req = None ∨
      (∃ m, importMode req = Some m ∧ ¬ recognized m) →
    failed (postImport processFile req w).1 ∧
    (postImport processFile req w).2 = w.

(** The calls one record gives rise to, and the collection they leave.
    A write that the store rejects leaves the collection as it was. *)
Inductive footprint (importMode : string) (company : obj) (ds : list obj)
    : list op → list obj → Prop :=
  | fp_no_email :
      truthy_at company "email" = false →
      footprint importMode company ds [] ds
  | fp_lookup e :
      company !! "email" = Some e → truthy e = true →
      footprint importMode company ds [OFindOne e] ds
  | fp_create e ds' :
      company !! "email" = Some e → truthy e = true →
      lookup_email e ds = None →
      importMode ∈ ["create_new"; "create_update_no_overwrite";
                    "create_update_overwrite"] →
      ds' = ds ++ [castDoc company] ∨ ds' = ds →
      footprint importMode company ds [OFindOne e; OCreate company] ds'
  | fp_fill e i existing ds' :
      company !! "email" = Some e → truthy e = true →
      lookup_email e ds = Some (i, existing) →
      importMode ∈ ["create_update_no_overwrite"; "update_no_overwrite"] →
      mergeFill existing company ≠ ∅ →
      ds' = <[i := castDoc (mergeFill existing company) ∪ existing]> ds
        ∨ ds' = ds →
      footprint importMode company ds
        [OFindOne e; OUpdateOne e (mergeFill existing company)] ds'
  | fp_overwrite e i existing ds' :
      company !! "email" = Some e → truthy e = true →
      lookup_email e ds = Some (i, existing) →
      importMode ∈ ["create_update_overwrite"; "update_overwrite"] →
      ds' = <[i := castDoc company ∪ existing]> ds ∨ ds' = ds →
      footprint importMode company ds [OFindOne e; OUpdateOne e company] ds'.

(** What one iteration does when the store rejects nothing: the calls it
    issues, the collection it leaves and the counters it returns. *)
Inductive outcome (importMode : string) (company : obj) (ds : list obj)
    (c : counters) : list op → list obj → counters → Prop :=
  | out_no_email :
      truthy_at company "email" = false →
      outcome importMode company ds c [] ds (skipped_incr c)
  | out_insert e :
      company !! "email" = Some e → truthy e = true →
      lookup_email e ds = None →
      importMode ∈ ["create_new"; "create_update_no_overwrite";
                    "create_update_overwrite"] →
      outcome importMode company ds c
        [OFindOne e; OCreate company] (ds ++ [castDoc company])
        (inserted_incr c)
  | out_skip_unmatched e :
      company !! "email" = Some e → truthy e = true →
      lookup_email e ds = None →
      importMode ∈ ["update_no_overwrite"; "update_overwrite"] →
      outcome importMode company ds c [OFindOne e] ds (skipped_incr c)
  | out_skip_matched e i existing :
      company !! "email" = Some e → truthy e = true →
      lookup_email e ds = Some (i, existing) →
      importMode = "create_new" ∨
        (importMode ∈ ["create_update_no_overwrite"; "update_no_overwrite"] ∧
         mergeFill existing company = ∅) →
      outcome importMode company ds c [OFindOne e] ds (skipped_incr c)
  | out_fill e i existing :
      company !! "email" = Some e → truthy e = true →
      lookup_email e ds = Some (i, existing) →
      importMode ∈ ["create_update_no_overwrite"; "update_no_overwrite"] →
      mergeFill existing company ≠ ∅ →
      outcome importMode company ds c
        [OFindOne e; OUpdateOne e (mergeFill existing company)]
        (<[i := castDoc (mergeFill existing company) ∪ existing]> ds)
        (updated_incr c)
  | out_overwrite e i existing :
      company !! "email" = Some e → truthy e = true →
      lookup_email e ds = Some (i, existing) →
      importMode ∈ ["create_update_overwrite"; "update_overwrite"] →
      outcome importMode company ds c
        [OFindOne e; OUpdateOne e company]
        (<[i := castDoc company ∪ existing]> ds) (updated_incr c)
  | out_no_case e :
      company !! "email" = Some e → truthy e = true →
      ¬ recognized importMode →
      outcome importMode company ds c [OFindOne e] ds c.

(** The outcomes of the iterations of a run, chained. *)
Inductive run_outcome (importMode : string)
    : list obj → list obj → counters → list op → list obj → counters → Prop :=
  | run_nil ds c : run_outcome importMode [] ds c [] ds c
  | run_cons company rest ds c issued1 ds1 c1 issued2 ds2 c2 :
      outcome importMode company ds c issued1 ds1 c1 →
      run_outcome importMode rest ds1 c1 issued2 ds2 c2 →
      run_outcome importMode (company :: rest) ds c (issued1 ++ issued2) ds2 c2.

(** Importing the record again would store nothing: it has no usable
    email, or it is matched and the schema fields it could fill are
    filled (under [create_new]: it is matched), or it is unmatched under
    an update-only mode. *)
Definition settled (importMode : string) (company : obj) (ds : list obj) : Prop :=
  truthy_at company "email" = false ∨
  ∃ e, company !! "email" = Some e ∧ truthy e = true ∧
       match lookup_email e ds with
       | Some (_, existing) =>
           importMode = "create_new" ∨
           castDoc (mergeFill existing company) = ∅
       | None => importMode = "update_no_overwrite"
       end.

End Statements.

(** ** Facts about the monad *)

Section MonadFacts.

Context {A B : Type}.

Lemma bind_inv (m : M A) (k : A → M B) w r w' :
  bind m k w = (r, w') →
  (∃ a w1, m w = (Ok a, w1) ∧ k a w1 = (r, w')) ∨
  (∃ msg, m w = (Err msg, w') ∧ r = Err msg).
Proof.
  unfold bind. destruct (m w) as [[a|msg] w1]; intros Hk.
  - left. by exists a, w1.
  - right. exists msg. by simplify_eq.
Qed.

Lemma bind_ok (m : M A) (k : A → M B) w a w1 :
  m w = (Ok a, w1) → bind m k w = k a w1.
Proof. unfold bind. by intros ->. Qed.

Lemma bind_err (m : M A) (k : A → M B) w msg w1 :
  m w = (Err msg, w1) → bind m k w = (Err msg, w1).
Proof. unfold bind. by intros ->. Qed.

End MonadFacts.

(** ** Proof automation *)

(** Inversion of a successful run, one awaited call at a time. *)
Ltac ok_inv H :=
  repeat match type of H with
  | bind _ _ _ = (Ok _, _) =>
      let a := fresh "a" in let w1 := fresh "w" in
      let H1 := fresh "Hcall" in let msg := fresh "msg" in
      apply bind_inv in H as [(a & w1 & H1 & H)|(msg & _ & [=])]
  | ret _ _ = (Ok _, _) => unfold ret in H; simplify_eq
  end.

(** Two constraints on the mode string that no string meets. *)
Ltac mode_clash :=
  exfalso;
  repeat match goal with
  | H : _ ∈ (_ :: _) |- _ => set_unfold in H
  | H : ¬ recognized _ |- _ => unfold recognized in H; set_unfold in H
  end;
  repeat match goal with
  | H : _ ∨ _ |- _ => destruct H
  | H : _ ∧ _ |- _ => destruct H
  | H : False |- _ => destruct H
  end;
  subst; first [ discriminate | congruence | tauto ].

Section Verification.

Context {D : Document}.

(** ** Facts about the store calls *)


Lemma healthy_tail w ds l :
  healthy w → healthy {| docs := ds; log := l; faults := tail (faults w) |}.
Proof.
  unfold healthy; simpl. intros H. destruct (faults w); [done|].
  by inversion H.
Qed.

(** A call on a healthy connection runs its action. *)
Lemma call_healthy {A} (o : op) (act : list obj → result A * list obj) w :
  healthy w →
  call o act w =
    ((act (docs w)).1,
     {| docs := (act (docs w)).2; log := log w ++ [o];
        faults := tail (faults w) |}).
Proof.
  unfold healthy, call. intros H.
  destruct (faults w) as [|[] fs]; [| by inversion H |];
    by destruct (act (docs w)).
Qed.

(** Whatever the connection does, a call is logged, and it either fails
    without touching the collection or runs its action. *)
Lemma call_inv {A} (o : op) (act : list obj → result A * list obj) w r w' :
  call o act w = (r, w') →
  log w' = log w ++ [o] ∧
  ((∃ msg, r = Err msg ∧ docs w' = docs w) ∨ act (docs w) = (r, docs w')).
Proof.
  unfold call. intros H.
  destruct (faults w) as [|[] fs]; [| simplify_eq/=; eauto |];
    destruct (act (docs w)) as [r0 ds] eqn:Hact; simplify_eq/=; eauto.
Qed.

(** ** The schema cast *)

Lemma numberToString_nonempty n : numberToString n ≠ "".
Proof.
  unfold numberToString. intros Hs.
  pose proof (NilEmpty.isi (Z.to_int n)) as Hisi. rewrite Hs in Hisi.
  simpl in Hisi. injection Hisi as Hn.
  pose proof (DecimalZ.of_to n) as Hof. rewrite <- Hn in Hof. simpl in Hof.
  subst n. discriminate Hn.
Qed.

Lemma castString_idemp v : castString (castString v) = castString v.
Proof. by destruct v as [|[]|n|s]. Qed.

(** A truthy value is cast to a non-empty string. *)
Lemma castString_truthy v :
  truthy v = true → ∃ s, castString v = VStr s ∧ s ≠ "".
Proof.
  destruct v as [|[]|n|s]; simpl; intros Ht; try discriminate Ht.
  - by exists "true".
  - exists (numberToString n). split; [done|]. apply numberToString_nonempty.
  - exists s. split; [done|]. intros ->. discriminate Ht.
Qed.

Lemma truthy_castString v : truthy v = true → truthy (castString v) = true.
Proof.
  intros (s & -> & Hs)%castString_truthy. simpl.
  by rewrite (proj2 (String.eqb_neq s "") Hs).
Qed.

Lemma schema_path_declared key :
  key ∈ schema_paths →
  ∃ st, schema_path companySchema key = Some st ∧ type st = TString.
Proof.
  unfold schema_paths. simpl. set_unfold.
  intros [->|[->|[->|[->|[->|[]]]]]]; simpl; by eexists.
Qed.

Lemma schema_path_None schema key :
  key ∉ schema.*1 → schema_path schema key = None.
Proof.
  induction schema as [|[path st] rest IH]; intros Hnot; [done|].
  cbn [schema_path]. destruct (String.eqb_spec path key) as [->|Hne].
  - destruct Hnot. by left.
  - apply IH. intros Hin. apply Hnot. by right.
Qed.

Lemma schema_path_undeclared key :
  key ∉ schema_paths → schema_path companySchema key = None.
Proof. apply schema_path_None. Qed.

(** The cast keeps exactly the declared fields, as strings. *)
Lemma lookup_castDoc (d : obj) key :
  castDoc d !! key =
    if bool_decide (key ∈ schema_paths) then castString <$> d !! key else None.
Proof.
  unfold castDoc. rewrite map_lookup_imap. case_bool_decide as Hin.
  - destruct (schema_path_declared key Hin) as (st & -> & Hty).
    destruct (d !! key); simpl; [|done]. by rewrite Hty.
  - rewrite (schema_path_undeclared key Hin). by destruct (d !! key).
Qed.

Lemma lookup_castDoc_declared (d : obj) key :
  key ∈ schema_paths → castDoc d !! key = castString <$> d !! key.
Proof. intros Hin. by rewrite lookup_castDoc, bool_decide_eq_true_2. Qed.

Lemma lookup_castDoc_undeclared (d : obj) key :
  key ∉ schema_paths → castDoc d !! key = None.
Proof. intros Hin. by rewrite lookup_castDoc, bool_decide_eq_false_2. Qed.

Lemma email_declared : "email" ∈ schema_paths.
Proof. unfold schema_paths. simpl. set_unfold. tauto. Qed.

Lemma castDoc_email (d : obj) : castDoc d !! "email" = castString <$> d !! "email".
Proof. apply lookup_castDoc_declared, email_declared. Qed.

(** A declared path that reads truthy holds a value whose string form is
    truthy; a truthy stored value reads truthy. *)
Lemma reads_truthy_declared (d : obj) key :
  key ∈ schema_paths →
  reads_truthy d key =
    match d !! key with Some v => truthy (castString v) | None => false end.
Proof. intros Hin. unfold reads_truthy. by rewrite bool_decide_eq_true_2. Qed.

Lemma reads_truthy_undeclared (d : obj) key :
  key ∉ schema_paths → reads_truthy d key = member_truthy key.
Proof. intros Hin. unfold reads_truthy. by rewrite bool_decide_eq_false_2. Qed.

(** ** Truthiness and the format hint *)

(** The falsy scalars are the empty string, zero, [null] and [false]; an
    absent key reads falsy; every other string or number is truthy. *)
Lemma truthy_spec (v : value) :
  truthy v = false ↔ v = VStr "" ∨ v = VNum 0 ∨ v = VNull ∨ v = VBool false.
Proof.
  split.
  - destruct v as [|[]|n|s]; simpl; intros H; try discriminate H; auto.
    + apply negb_false_iff, Z.eqb_eq in H as ->. auto.
    + apply negb_false_iff, String.eqb_eq in H as ->. auto.
  - by intros [->|[->|[->| ->]]].
Qed.

Lemma truthy_at_absent (o : obj) key : o !! key = None → truthy_at o key = false.
Proof. unfold truthy_at. by intros ->. Qed.

(** ** Facts about the merge-fill loop *)

Lemma mergeFill_lookup (existing company : obj) (key : string) :
  mergeFill existing company !! key =
    match company !! key with
    | Some v =>
        if negb (reads_truthy existing key) && truthy v then Some v else None
    | None => None
    end.
Proof.
  unfold mergeFill.
  apply (map_fold_weak_ind (λ (update m : obj), update !! key =
    match m !! key with
    | Some v =>
        if negb (reads_truthy existing key) && truthy v then Some v else None
    | None => None
    end)).
  - by rewrite !lookup_empty.
  - intros k x m update Hk IH.
    destruct (decide (k = key)) as [->|Hne].
    + rewrite lookup_insert_eq.
      destruct (negb (reads_truthy existing key) && truthy x) eqn:Hc.
      * by rewrite lookup_insert_eq.
      * rewrite IH, Hk. done.
    + rewrite lookup_insert_ne by done.
      destruct (negb (reads_truthy existing k) && truthy x);
        [rewrite lookup_insert_ne by done|]; exact IH.
Qed.

(** The change set only holds keys that read falsy on the existing
    document. *)
Lemma mergeFill_falsy_only (existing company : obj) key v :
  mergeFill existing company !! key = Some v →
  company !! key = Some v ∧ truthy v = true ∧ reads_truthy existing key = false.
Proof.
  rewrite mergeFill_lookup. destruct (company !! key) as [x|] eqn:Hx; [|done].
  destruct (reads_truthy existing key) eqn:He, (truthy x) eqn:Ht; simpl;
    intros Hv; simplify_eq. done.
Qed.

Lemma size_pos_nonempty (m : obj) : (0 <? size m)%nat = true ↔ m ≠ ∅.
Proof.
  rewrite Nat.ltb_lt. split.
  - intros H ->. rewrite map_size_empty in H. lia.
  - intros H. destruct (size m) eqn:Hs; [|lia].
    by apply map_size_empty_iff in Hs.
Qed.

Lemma size_zero_empty (m : obj) : (0 <? size m)%nat = false ↔ m = ∅.
Proof.
  rewrite Nat.ltb_ge. split.
  - intros H. apply map_size_empty_iff. lia.
  - intros ->. by rewrite map_size_empty.
Qed.

(** ** Facts about single store calls on a healthy connection *)

Lemma lookup_email_Some e ds i d :
  lookup_email e ds = Some (i, d) →
  ds !! i = Some d ∧ d !! "email" = Some (castString e).
Proof. unfold lookup_email. by intros (Hi & He & _)%list_find_Some. Qed.

Lemma schema_required : required_paths companySchema = ["email"].
Proof. reflexivity. Qed.

Lemma schema_unique : unique_paths companySchema = ["email"].
Proof. reflexivity. Qed.

Lemma lookup_email_None_not_taken e ds (d : obj) :
  lookup_email e ds = None → d !! "email" = Some (castString e) →
  path_taken "email" d ds = false.
Proof.
  unfold lookup_email, path_taken. rewrite list_find_None.
  intros Hall He. apply bool_decide_eq_false. rewrite Exists_exists.
  intros (x & Hx & Hxe). rewrite Forall_forall in Hall.
  apply (Hall x Hx). unfold has_email. congruence.
Qed.

Lemma findOne_healthy e w :
  healthy w →
  findOne e w =
    (Ok (snd <$> lookup_email e (docs w)),
     {| docs := docs w; log := log w ++ [OFindOne e];
        faults := tail (faults w) |}).
Proof. intros H. unfold findOne. by rewrite call_healthy. Qed.

Lemma castDoc_email_Some (d : obj) e :
  d !! "email" = Some e → castDoc d !! "email" = Some (castString e).
Proof. intros He. by rewrite castDoc_email, He. Qed.

Lemma create_healthy (d : obj) e w :
  healthy w → d !! "email" = Some e → truthy e = true →
  lookup_email e (docs w) = None →
  create d w =
    (Ok (),
     {| docs := docs w ++ [castDoc d]; log := log w ++ [OCreate d];
        faults := tail (faults w) |}).
Proof.
  intros Hw He Ht Hnone. unfold create. rewrite call_healthy by done.
  rewrite schema_required, schema_unique. cbn [forallb existsb fst snd].
  unfold truthy_at. rewrite (castDoc_email_Some d e He).
  rewrite (truthy_castString e Ht). cbn [andb negb orb].
  by rewrite (lookup_email_None_not_taken e _ (castDoc d) Hnone
                (castDoc_email_Some d e He)).
Qed.

(** A [$set] that leaves the [email] entry of the matched document as it
    is cannot violate the unique index. *)
Lemma updateOne_healthy e (set : obj) i d w :
  healthy w → lookup_email e (docs w) = Some (i, d) →
  (castDoc set ∪ d) !! "email" = d !! "email" →
  updateOne e set w =
    (Ok (),
     {| docs := <[i := castDoc set ∪ d]> (docs w);
        log := log w ++ [OUpdateOne e set];
        faults := tail (faults w) |}).
Proof.
  intros Hw Hl Hsame. unfold updateOne. rewrite call_healthy by done.
  rewrite Hl, schema_unique. cbn [existsb fst snd].
  rewrite (bool_decide_eq_false_2 (_ ≠ _)) by (intros Hne; by apply Hne).
  done.
Qed.

(** The email of a matched document reads truthy. *)
Lemma reads_truthy_email (existing : obj) e :
  existing !! "email" = Some (castString e) → truthy e = true →
  reads_truthy existing "email" = true.
Proof.
  intros He Ht. rewrite reads_truthy_declared by apply email_declared.
  rewrite He, castString_idemp. by apply truthy_castString.
Qed.

Lemma mergeFill_keeps_email existing company e :
  existing !! "email" = Some (castString e) → truthy e = true →
  (castDoc (mergeFill existing company) ∪ existing) !! "email"
    = existing !! "email".
Proof.
  intros He Ht. rewrite lookup_union, castDoc_email.
  destruct (mergeFill existing company !! "email") as [v|] eqn:Hm.
  - apply mergeFill_falsy_only in Hm as (_ & _ & Hf).
    rewrite (reads_truthy_email existing e He Ht) in Hf. discriminate Hf.
  - simpl. by rewrite (left_id None _).
Qed.

Lemma overwrite_keeps_email (existing company : obj) e :
  existing !! "email" = Some (castString e) → company !! "email" = Some e →
  (castDoc company ∪ existing) !! "email" = existing !! "email".
Proof.
  intros He Hc. by rewrite lookup_union, (castDoc_email_Some _ _ Hc), He.
Qed.

(** ** Scenarios of the specification, run on the model *)

(** ** The reconciliation policy, record by record *)

(** C4. A record whose [email] is absent or falsy is counted as skipped
    under every import mode (recognized or not) and on every connection,
    and the world is left exactly as it was: no lookup is logged and the
    collection is untouched. *)
Theorem missing_email_skipped (importMode : string) (company : obj)
    (c : counters) (w : world) :
  truthy_at company "email" = false →
  importCompany importMode company c w = (Ok (skipped_incr c), w) ∧
  importCompanies [company] importMode w =
    (Ok {| inserted := 0; updated := 0; skipped := 1 |}, w).
Proof.
  intros Hfalsy.
  assert (∀ c', importCompany importMode company c' w = (Ok (skipped_incr c'), w))
    as Hone.
  { intros c'. unfold importCompany, truthy_at in *.
    destruct (company !! "email") as [e|]; [|done]. by rewrite Hfalsy. }
  split; [apply Hone|].
  unfold importCompanies. simpl. by rewrite (bind_ok _ _ _ _ _ (Hone _)).
Qed.

(** C3. For a record with a non-empty email on a connection that
    rejects no call: with no match in the store, the three create modes
    insert it (one lookup, one insert, inserted + 1; the new document goes
    last and holds the schema fields of the record in string form) and the
    two update modes skip it (one lookup, skipped + 1, collection
    untouched); with a match, [create_new] skips it (one lookup,
    skipped + 1, collection untouched). *)
Theorem unmatched_policy (importMode : string) (company : obj) (e : value)
    (c : counters) (w : world) :
  healthy w → company !! "email" = Some e → truthy e = true →
  (lookup_email e (docs w) = None →
     (importMode ∈ ["create_new"; "create_update_no_overwrite";
                    "create_update_overwrite"] →
      ∃ stored : obj,
        importCompany importMode company c w =
          (Ok {| inserted := S (inserted c); updated := updated c;
                 skipped := skipped c |},
           {| docs := docs w ++ [stored];
              log := log w ++ [OFindOne e; OCreate company];
              faults := tail (tail (faults w)) |}) ∧
        ∀ key, stored !! key =
                 if bool_decide (key ∈ schema_paths)
                 then castString <$> company !! key else None) ∧
     (importMode ∈ ["update_no_overwrite"; "update_overwrite"] →
      importCompany importMode company c w =
        (Ok {| inserted := inserted c; updated := updated c;
               skipped := S (skipped c) |}, looked_up e w))) ∧
  (is_Some (lookup_email e (docs w)) →
     importCompany "create_new" company c w =
       (Ok {| inserted := inserted c; updated := updated c;
              skipped := S (skipped c) |}, looked_up e w)).
Proof.
  intros Hw He Ht.
  assert (healthy (looked_up e w)) as Hw' by by apply healthy_tail.
  split; [intros Hnone; split; intros Hmode | intros [[i d] Hsome]].
  - exists (castDoc company). split; [|apply lookup_castDoc].
    assert (importCompany importMode company c w =
            (let* _ := create company in ret (inserted_incr c)) (looked_up e w))
      as ->.
    { unfold importCompany. rewrite He, Ht. simpl.
      rewrite (bind_ok _ _ _ _ _ (findOne_healthy e w Hw)), Hnone. simpl.
      set_unfold. by destruct Hmode as [->|[->|[->|[]]]]. }
    rewrite (bind_ok _ _ _ () _ (create_healthy company e _ Hw' He Ht Hnone)).
    unfold ret, looked_up, inserted_incr. simpl. by rewrite <- app_assoc.
  - unfold importCompany. rewrite He, Ht. simpl.
    rewrite (bind_ok _ _ _ _ _ (findOne_healthy e w Hw)), Hnone. simpl.
    set_unfold. by destruct Hmode as [->|[->|[]]].
  - unfold importCompany. rewrite He, Ht. simpl.
    rewrite (bind_ok _ _ _ _ _ (findOne_healthy e w Hw)), Hsome. done.
Qed.

Lemma lookup_email_insert e ds i (d d' : obj) :
  lookup_email e ds = Some (i, d) → d' !! "email" = Some (castString e) →
  lookup_email e (<[i := d']> ds) = Some (i, d').
Proof.
  unfold lookup_email. intros (Hi & _ & Hleast)%list_find_Some He.
  apply list_find_Some. split_and!.
  - apply list_lookup_insert_eq. by eapply lookup_lt_Some.
  - exact He.
  - intros j y Hj Hlt. rewrite list_lookup_insert_ne in Hj by lia.
    by eapply Hleast.
Qed.

Lemma mergeFill_fillable existing company key v :
  mergeFill existing company !! key = Some v ↔ fillable existing company key v.
Proof.
  split; [apply mergeFill_falsy_only|].
  intros (Hc & Ht & Hf). by rewrite mergeFill_lookup, Hc, Hf, Ht.
Qed.

Lemma mergeFill_empty_iff existing company :
  mergeFill existing company = ∅ ↔ ∀ key v, ¬ fillable existing company key v.
Proof.
  split.
  - intros Hemp key v Hfill%mergeFill_fillable.
    by rewrite Hemp, lookup_empty in Hfill.
  - intros Hnone. apply map_eq. intros key. rewrite lookup_empty.
    destruct (mergeFill existing company !! key) as [v|] eqn:Hm; [|done].
    by apply mergeFill_fillable, Hnone in Hm.
Qed.

(** The document a [$set] of the change set leaves: the declared fields
    of the change set in string form, every other field as it was. *)
Lemma lookup_set_union (set existing : obj) key :
  (castDoc set ∪ existing) !! key =
    match set !! key with
    | Some v =>
        if bool_decide (key ∈ schema_paths) then Some (castString v)
        else existing !! key
    | None => existing !! key
    end.
Proof.
  rewrite lookup_union, lookup_castDoc.
  destruct (set !! key) as [v|]; case_bool_decide; simpl;
    try (by rewrite (left_id None _)).
  by destruct (existing !! key).
Qed.

(** The two no-overwrite cases on a matched record and a healthy
    connection, after the lookup. *)
Lemma applyMergeFill_healthy e i existing company c w :
  healthy w → lookup_email e (docs w) = Some (i, existing) → truthy e = true →
  applyMergeFill e existing company c w =
    if decide (mergeFill existing company = ∅) then (Ok (skipped_incr c), w)
    else
      (Ok (updated_incr c),
       {| docs := <[i := castDoc (mergeFill existing company) ∪ existing]>
                    (docs w);
          log := log w ++ [OUpdateOne e (mergeFill existing company)];
          faults := tail (faults w) |}).
Proof.
  intros Hw Hl Ht. unfold applyMergeFill.
  destruct (lookup_email_Some _ _ _ _ Hl) as [_ He].
  case_decide as Hemp.
  - by rewrite (proj2 (size_zero_empty _) Hemp).
  - rewrite (proj2 (size_pos_nonempty _) Hemp).
    by rewrite (bind_ok _ _ _ () _
      (updateOne_healthy e _ i existing w Hw Hl
         (mergeFill_keeps_email existing company e He Ht))).
Qed.

(** C1, amended.  A record with a non-empty email that matches a
    persisted record, under [create_update_no_overwrite] or
    [update_no_overwrite], on a connection that rejects no call: the change
    set holds exactly the fields present and truthy in the incoming record
    that read falsy on the existing document.  If there is no such field
    the record is skipped after the lookup (skipped + 1), with no write;
    otherwise it is counted as updated (updated + 1), the change set is
    written with one [$set], and the matched document becomes the existing
    one with exactly the schema fields of the change set set, in string
    form; a field of the change set outside the schema is not stored.  The
    document is found again under the same email. *)
Theorem merge_fill_policy (importMode : string) (company : obj) (e : value)
    (i : nat) (existing : obj) (c : counters) (w : world) :
  healthy w → company !! "email" = Some e → truthy e = true →
  lookup_email e (docs w) = Some (i, existing) →
  importMode ∈ ["create_update_no_overwrite"; "update_no_overwrite"] →
  ((∀ key v, ¬ fillable existing company key v) ∧
   importCompany importMode company c w =
     (Ok {| inserted := inserted c; updated := updated c;
            skipped := S (skipped c) |}, looked_up e w))
  ∨
  ((∃ key v, fillable existing company key v) ∧
   ∃ update merged : obj,
     importCompany importMode company c w =
       (Ok {| inserted := inserted c; updated := S (updated c);
              skipped := skipped c |},
        {| docs := <[i := merged]> (docs w);
           log := log w ++ [OFindOne e; OUpdateOne e update];
           faults := tail (tail (faults w)) |}) ∧
     (∀ key v, update !! key = Some v ↔ fillable existing company key v) ∧
     (∀ key, merged !! key =
               match update !! key with
               | Some v =>
                   if bool_decide (key ∈ schema_paths)
                   then Some (castString v) else existing !! key
               | None => existing !! key
               end) ∧
     lookup_email e (<[i := merged]> (docs w)) = Some (i, merged)).
Proof.
  intros Hw He Ht Hl Hmode.
  assert (healthy (looked_up e w)) as Hw' by by apply healthy_tail.
  destruct (lookup_email_Some _ _ _ _ Hl) as [_ Hee].
  assert (importCompany importMode company c w =
          applyMergeFill e existing company c (looked_up e w)) as ->.
  { unfold importCompany. rewrite He, Ht. simpl.
    rewrite (bind_ok _ _ _ _ _ (findOne_healthy e w Hw)), Hl. simpl.
    set_unfold. by destruct Hmode as [->|[->|[]]]. }
  rewrite (applyMergeFill_healthy e i existing company c _ Hw' Hl Ht).
  case_decide as Hemp.
  - left. split; [by apply mergeFill_empty_iff | done].
  - right. split.
    + destruct (map_choose _ Hemp) as (key & v & Hkv).
      exists key, v. by apply mergeFill_fillable.
    + exists (mergeFill existing company),
             (castDoc (mergeFill existing company) ∪ existing).
      split_and!.
      * unfold looked_up, updated_incr. simpl. by rewrite <- app_assoc.
      * apply mergeFill_fillable.
      * apply lookup_set_union.
      * apply (lookup_email_insert e _ i existing); [done|].
        by rewrite (mergeFill_keeps_email existing company e Hee Ht).
Qed.

(** C2, amended.  A record with a non-empty email that matches a
    persisted record, under [create_update_overwrite] or
    [update_overwrite], on a connection that rejects no call: the whole
    incoming record is written with one [$set] and the record is counted
    as updated (updated + 1); in the matched document every schema field
    the incoming record provides holds the provided value in string form
    (a string as given), and every other field, a column outside the
    schema in particular, is as it was; the document is found again under
    the same email. *)
Theorem overwrite_policy (importMode : string) (company : obj) (e : value)
    (i : nat) (existing : obj) (c : counters) (w : world) :
  healthy w → company !! "email" = Some e → truthy e = true →
  lookup_email e (docs w) = Some (i, existing) →
  importMode ∈ ["create_update_overwrite"; "update_overwrite"] →
  ∃ merged : obj,
    importCompany importMode company c w =
      (Ok {| inserted := inserted c; updated := S (updated c);
             skipped := skipped c |},
       {| docs := <[i := merged]> (docs w);
          log := log w ++ [OFindOne e; OUpdateOne e company];
          faults := tail (tail (faults w)) |}) ∧
    (∀ key v, key ∈ schema_paths → company !! key = Some v →
              merged !! key = Some (castString v)) ∧
    (∀ key, key ∉ schema_paths ∨ company !! key = None →
            merged !! key = existing !! key) ∧
    lookup_email e (<[i := merged]> (docs w)) = Some (i, merged).
Proof.
  intros Hw He Ht Hl Hmode.
  assert (healthy (looked_up e w)) as Hw' by by apply healthy_tail.
  destruct (lookup_email_Some _ _ _ _ Hl) as [_ Hee].
  exists (castDoc company ∪ existing). split_and!.
  - assert (importCompany importMode company c w =
            (let* _ := updateOne e company in ret (updated_incr c))
              (looked_up e w)) as ->.
    { unfold importCompany. rewrite He, Ht. simpl.
      rewrite (bind_ok _ _ _ _ _ (findOne_healthy e w Hw)), Hl. simpl.
      set_unfold. by destruct Hmode as [->|[->|[]]]. }
    rewrite (bind_ok _ _ _ () _
      (updateOne_healthy e company i existing _ Hw' Hl
         (overwrite_keeps_email existing company e Hee He))).
    unfold ret, looked_up, updated_incr. simpl. by rewrite <- app_assoc.
  - intros key v Hin Hk. rewrite lookup_set_union, Hk.
    by rewrite bool_decide_eq_true_2.
  - intros key Hk. rewrite lookup_set_union.
    destruct (company !! key) as [v|]; [|done].
    destruct Hk as [Hnot|[=]]. by rewrite bool_decide_eq_false_2.
  - apply (lookup_email_insert e _ i existing); [done|].
    by rewrite (overwrite_keeps_email existing company e Hee He).
Qed.

(** ** The counters *)

Lemma applyMergeFill_counts e existing company c w c' w' :
  applyMergeFill e existing company c w = (Ok c', w') → total c' = S (total c).
Proof.
  unfold applyMergeFill. destruct (0 <? size _)%nat; intros H; ok_inv H;
    unfold total; simpl; lia.
Qed.

Lemma importCompany_counts importMode company c w c' w' :
  recognized importMode →
  importCompany importMode company c w = (Ok c', w') →
  total c' = S (total c).
Proof.
  intros Hmode H. unfold importCompany in H.
  destruct (company !! "email") as [e|]; [destruct (truthy e)|]; simpl in H.
  2,3: ok_inv H; unfold total; simpl; lia.
  apply bind_inv in H as [(existing & w1 & _ & H)|(msg & _ & [=])].
  unfold recognized in Hmode. set_unfold.
  destruct Hmode as [->|[->|[->|[->|[->|[]]]]]]; simpl in H;
    destruct existing as [existing|];
    first [ by eapply applyMergeFill_counts
          | ok_inv H; unfold total; simpl; lia ].
Qed.

Lemma importLoop_counts importMode companies :
  recognized importMode →
  ∀ c w c' w', importLoop importMode companies c w = (Ok c', w') →
  total c' = total c + length companies.
Proof.
  intros Hmode. induction companies as [|company rest IH]; intros c w c' w' H.
  - simpl in H. ok_inv H. simpl. lia.
  - simpl in H.
    apply bind_inv in H as [(c1 & w1 & H1 & H)|(msg & _ & [=])].
    apply IH in H. apply importCompany_counts in H1; [|done].
    simpl. lia.
Qed.

Lemma healthy_step w w' :
  healthy w → faults w' = tail (faults w) → healthy w'.
Proof.
  unfold healthy. intros H ->. destruct (faults w); [done|]. by inversion H.
Qed.

(** On a healthy connection every iteration of the loop completes, under
    any mode string, and leaves the connection healthy. *)
Lemma importCompany_healthy importMode company c w :
  healthy w →
  ∃ c' w', importCompany importMode company c w = (Ok c', w') ∧ healthy w'.
Proof.
  intros Hw. unfold importCompany.
  destruct (company !! "email") as [e|] eqn:He; [|by eexists _, _].
  destruct (truthy e) eqn:Ht; simpl; [|by eexists _, _].
  rewrite (bind_ok _ _ _ _ _ (findOne_healthy e w Hw)).
  assert (healthy (looked_up e w)) as Hw' by by apply healthy_tail.
  fold (looked_up e w).
  assert (∀ c0 : counters, lookup_email e (docs w) = None →
    ∃ c' w', (let* _ := create company in ret c0) (looked_up e w) = (Ok c', w')
             ∧ healthy w') as Hcreate.
  { intros c0 Hnone.
    rewrite (bind_ok _ _ _ () _ (create_healthy company e _ Hw' He Ht Hnone)).
    eexists _, _. split; [done|]. by eapply healthy_step. }
  assert (∀ i d, lookup_email e (docs w) = Some (i, d) →
    ∃ c' w', applyMergeFill e d company c (looked_up e w) = (Ok c', w')
             ∧ healthy w') as Hfill.
  { intros i d Hl.
    rewrite (applyMergeFill_healthy e i d company c _ Hw' Hl Ht).
    case_decide; eexists _, _; (split; [done|]); [done|].
    by eapply healthy_step. }
  assert (∀ i d (c0 : counters), lookup_email e (docs w) = Some (i, d) →
    ∃ c' w', (let* _ := updateOne e company in ret c0) (looked_up e w)
             = (Ok c', w') ∧ healthy w') as Hover.
  { intros i d c0 Hl. destruct (lookup_email_Some _ _ _ _ Hl) as [_ Hee].
    rewrite (bind_ok _ _ _ () _
      (updateOne_healthy e company i d _ Hw' Hl
         (overwrite_keeps_email d company e Hee He))).
    eexists _, _. split; [done|]. by eapply healthy_step. }
  destruct (lookup_email e (docs w)) as [[i d]|] eqn:Hl; simpl;
    repeat (match goal with |- context [String.eqb ?a ?b] =>
              destruct (String.eqb a b) end);
    eauto; by eexists _, _.
Qed.

Lemma importLoop_healthy importMode companies :
  ∀ c w, healthy w →
  ∃ c' w', importLoop importMode companies c w = (Ok c', w') ∧ healthy w'.
Proof.
  induction companies as [|company rest IH]; intros c w Hw; simpl.
  - by eexists _, _.
  - destruct (importCompany_healthy importMode company c w Hw)
      as (c1 & w1 & H1 & Hw1).
    rewrite (bind_ok _ _ _ _ _ H1). by apply IH.
Qed.

(** C6, amended.  Under each of the five recognized modes, the counters a
    run returns satisfy inserted + updated + skipped = number of input
    records; and on a healthy connection the run does return counters. *)
Theorem counter_conservation (companies : list obj) (importMode : string)
    (w : world) :
  recognized importMode →
  (∀ c w', importCompanies companies importMode w = (Ok c, w') →
           inserted c + updated c + skipped c = length companies) ∧
  (healthy w → ∃ c w', importCompanies companies importMode w = (Ok c, w')).
Proof.
  intros Hmode. split.
  - intros c w' H. unfold importCompanies in H.
    by apply importLoop_counts in H.
  - intros Hw. unfold importCompanies.
    destruct (importLoop_healthy importMode companies zero w Hw)
      as (c & w' & H & _).
    by exists c, w'.
Qed.

(** ** Request validation *)

(** C5, amended.  When the file is absent, or the mode is absent or the
    empty string, the import answers 400 with a message naming what is
    missing, whatever the parser would have returned, and the world is
    left exactly as it was: no call reaches the store. *)
Theorem import_validation (processFile : string → bool → result (list obj))
    (req : importRequest) (w : world) :
  file req = None ∨ importMode req = None ∨ importMode req = Some "" →
  postImport processFile req w =
    ({| status := 400;
        body := Message (match file req with
                         | None => "No file uploaded"
                         | Some _ => "Import mode is required"
                         end) |}, w).
Proof.
  unfold postImport. intros [Hf|[Hm|Hm]].
  - by rewrite Hf.
  - rewrite Hm. by destruct (file req).
  - rewrite Hm. by destruct (file req).
Qed.

(** ** What one store call can do, on any connection *)

Lemma findOne_inv e w r w' :
  findOne e w = (r, w') →
  log w' = log w ++ [OFindOne e] ∧ docs w' = docs w ∧
  ∀ a, r = Ok a → a = snd <$> lookup_email e (docs w).
Proof.
  unfold findOne. intros [Hlog [(msg & -> & Hd)|Hact]]%call_inv.
  - by split_and!.
  - simplify_eq. by split_and!; [| |intros a [= <-]].
Qed.

Lemma create_inv d w r w' :
  create d w = (r, w') →
  log w' = log w ++ [OCreate d] ∧
  ((r = Ok () ∧ docs w' = docs w ++ [castDoc d]) ∨
   ((∃ msg, r = Err msg) ∧ docs w' = docs w)).
Proof.
  unfold create. intros [Hlog [(msg & -> & Hd)|Hact]]%call_inv.
  - split; [done|]. right. eauto.
  - split; [done|]. cbv zeta in Hact.
    destruct (negb _); [|destruct (existsb _ _)]; simplify_eq; eauto.
Qed.

Lemma updateOne_inv e set w r w' :
  updateOne e set w = (r, w') →
  log w' = log w ++ [OUpdateOne e set] ∧
  ((r = Ok () ∧
    docs w' = match lookup_email e (docs w) with
              | Some (i, d) => <[i := castDoc set ∪ d]> (docs w)
              | None => docs w
              end) ∨
   ((∃ msg, r = Err msg) ∧ docs w' = docs w)).
Proof.
  unfold updateOne. intros [Hlog [(msg & -> & Hd)|Hact]]%call_inv.
  - split; [done|]. right. eauto.
  - split; [done|].
    destruct (lookup_email e (docs w)) as [[i d]|]; simpl in Hact.
    + destruct (_ || _); simplify_eq; eauto.
    + simplify_eq. eauto.
Qed.

(** A rejected lookup makes the iteration throw, under every mode. *)
Lemma lookup_failure_throws importMode company e c w fs :
  company !! "email" = Some e → truthy e = true → faults w = true :: fs →
  importCompany importMode company c w =
    (Err "store operation failed",
     {| docs := docs w; log := log w ++ [OFindOne e]; faults := fs |}).
Proof.
  intros He Ht Hf. unfold importCompany. rewrite He, Ht. simpl.
  apply bind_err. unfold findOne, call. by rewrite Hf.
Qed.

(** ** What one iteration of the loop can do, on any connection *)

Lemma then_ret_inv {A} (m : M unit) (c0 : A) w r w' :
  (let* _ := m in ret c0) w = (r, w') →
  ∃ r0, m w = (r0, w') ∧
        ((r0 = Ok () ∧ r = Ok c0) ∨ ∃ msg, r0 = Err msg ∧ r = Err msg).
Proof.
  intros [([] & w1 & Hm & Hret)|(msg & Hm & ->)]%bind_inv.
  - unfold ret in Hret. simplify_eq. exists (Ok ()). split; [done|]. by left.
  - exists (Err msg). split; [done|]. right. by exists msg.
Qed.

Lemma write_branch_inv {A} (m : M unit) (c0 : A) (o : op) (ds1 : list obj)
    w r w' :
  (∀ r0, m w = (r0, w') →
     log w' = log w ++ [o] ∧
     ((r0 = Ok () ∧ docs w' = ds1) ∨ ((∃ msg, r0 = Err msg) ∧ docs w' = docs w))) →
  (let* _ := m in ret c0) w = (r, w') →
  log w' = log w ++ [o] ∧ (docs w' = ds1 ∨ docs w' = docs w) ∧
  ((∃ msg, r = Err msg) → docs w' = docs w).
Proof.
  intros Hm (r0 & Hr0 & Hres)%then_ret_inv.
  destruct (Hm r0 Hr0) as [Hlog Hdocs]. split; [done|].
  destruct Hres as [[-> ->]|(msg & -> & ->)].
  - destruct Hdocs as [[_ ->]|[[msg [=]] _]]. split; [by left|].
    by intros [msg [=]].
  - destruct Hdocs as [[[=] _]|[_ ->]]. by split; [right|].
Qed.

(** Every run of one iteration, whatever the mode string, the counters
    and the connection, has one of the footprints; and an iteration that
    throws leaves the collection as it found it. *)
Lemma importCompany_footprint importMode company c w r w' :
  importCompany importMode company c w = (r, w') →
  ∃ issued, log w' = log w ++ issued ∧
            footprint importMode company (docs w) issued (docs w') ∧
            ((∃ msg, r = Err msg) → docs w' = docs w).
Proof.
  intros H. unfold importCompany in H.
  destruct (company !! "email") as [e|] eqn:He; cycle 1.
  { unfold ret in H. simplify_eq. exists []. rewrite (right_id [] _).
    split_and!; [done| |done]. apply fp_no_email. unfold truthy_at. by rewrite He. }
  destruct (truthy e) eqn:Ht; simpl in H; cycle 1.
  { unfold ret in H. simplify_eq. exists []. rewrite (right_id [] _).
    split_and!; [done| |done]. apply fp_no_email. unfold truthy_at. by rewrite He. }
  apply bind_inv in H as [(found & w1 & Hfind & H)|(msg & Hfind & ->)]; cycle 1.
  { apply findOne_inv in Hfind as (Hlog & Hdocs & _).
    exists [OFindOne e]. rewrite Hdocs. split_and!; [done| |done].
    by apply fp_lookup. }
  apply findOne_inv in Hfind as (Hlog1 & Hdocs1 & Hfound).
  specialize (Hfound found eq_refl).
  assert (∀ c0 : counters, ret c0 w1 = (r, w') →
    ∃ issued, log w' = log w ++ issued ∧
              footprint importMode company (docs w) issued (docs w') ∧
              ((∃ msg, r = Err msg) → docs w' = docs w)) as Hskip.
  { intros c0 Hret. unfold ret in Hret. simplify_eq.
    exists [OFindOne e]. rewrite Hdocs1. split_and!; [done| |done].
    by apply fp_lookup. }
  assert (∀ c0 : counters, found = None →
    importMode ∈ ["create_new"; "create_update_no_overwrite";
                  "create_update_overwrite"] →
    (let* _ := create company in ret c0) w1 = (r, w') →
    ∃ issued, log w' = log w ++ issued ∧
              footprint importMode company (docs w) issued (docs w') ∧
              ((∃ msg, r = Err msg) → docs w' = docs w)) as Hcreate.
  { intros c0 -> Hmode Hrun.
    apply (write_branch_inv _ _ (OCreate company)
             (docs w1 ++ [castDoc company]))
      in Hrun as (Hlog & Hdocs & Herr); [|intros r0; apply create_inv].
    exists [OFindOne e; OCreate company].
    rewrite Hlog, Hlog1, <- app_assoc, Hdocs1 in *. split_and!; [done| |done].
    apply fp_create; try done.
    by destruct (lookup_email e (docs w)). }
  assert (∀ existing, found = Some existing →
    importMode ∈ ["create_update_no_overwrite"; "update_no_overwrite"] →
    applyMergeFill e existing company c w1 = (r, w') →
    ∃ issued, log w' = log w ++ issued ∧
              footprint importMode company (docs w) issued (docs w') ∧
              ((∃ msg, r = Err msg) → docs w' = docs w)) as Hfill.
  { intros existing -> Hmode Hrun. unfold applyMergeFill in Hrun.
    destruct (0 <? size _) eqn:Hsize; [|by eapply Hskip].
    apply size_pos_nonempty in Hsize.
    destruct (lookup_email e (docs w)) as [[i d]|] eqn:Hl; [|done].
    assert (d = existing) as -> by (simpl in Hfound; congruence).
    apply (write_branch_inv _ _ (OUpdateOne e (mergeFill existing company))
             (<[i := castDoc (mergeFill existing company) ∪ existing]>
                (docs w1)))
      in Hrun as (Hlog & Hdocs & Herr).
    2:{ intros r0 Hr0. apply updateOne_inv in Hr0. by rewrite Hdocs1, Hl in *. }
    exists [OFindOne e; OUpdateOne e (mergeFill existing company)].
    rewrite Hlog, Hlog1, <- app_assoc, Hdocs1 in *. split_and!; [done| |done].
    by eapply fp_fill. }
  assert (∀ (c0 : counters) existing, found = Some existing →
    importMode ∈ ["create_update_overwrite"; "update_overwrite"] →
    (let* _ := updateOne e company in ret c0) w1 = (r, w') →
    ∃ issued, log w' = log w ++ issued ∧
              footprint importMode company (docs w) issued (docs w') ∧
              ((∃ msg, r = Err msg) → docs w' = docs w)) as Hover.
  { intros c0 existing -> Hmode Hrun.
    destruct (lookup_email e (docs w)) as [[i d]|] eqn:Hl; [|done].
    assert (d = existing) as -> by (simpl in Hfound; congruence).
    apply (write_branch_inv _ _ (OUpdateOne e company)
             (<[i := castDoc company ∪ existing]> (docs w1)))
      in Hrun as (Hlog & Hdocs & Herr).
    2:{ intros r0 Hr0. apply updateOne_inv in Hr0. by rewrite Hdocs1, Hl in *. }
    exists [OFindOne e; OUpdateOne e company].
    rewrite Hlog, Hlog1, <- app_assoc, Hdocs1 in *. split_and!; [done| |done].
    by eapply fp_overwrite. }
  clear Hfound Hlog1 Hdocs1.
  repeat (match type of H with context [String.eqb ?a ?b] =>
            destruct (String.eqb_spec a b) as [->|?] end);
    try (destruct found as [existing|]);
    first [ by eapply Hskip
          | eapply Hcreate; [done| |done]; set_solver
          | eapply Hfill; [done| |done]; set_solver
          | eapply Hover; [done| |done]; set_solver ].
Qed.

(** ** From one iteration to the whole run *)

Lemma importLoop_rel (R : relation world) `{!PreOrder R} importMode :
  (∀ company c w r w', importCompany importMode company c w = (r, w') → R w w') →
  ∀ companies c w r w', importLoop importMode companies c w = (r, w') → R w w'.
Proof.
  intros Hone. induction companies as [|company rest IH]; intros c w r w' H.
  - simpl in H. unfold ret in H. by simplify_eq.
  - simpl in H. apply bind_inv in H as [(c1 & w1 & H1 & H)|(msg & H1 & _)].
    + transitivity w1; [by eapply Hone | by eapply IH].
    + by eapply Hone.
Qed.

Lemma importLoop_app importMode pre post c w :
  importLoop importMode (pre ++ post) c w =
    (let* c1 := importLoop importMode pre c in importLoop importMode post c1) w.
Proof.
  revert c w. induction pre as [|company rest IH]; intros c w; simpl.
  - done.
  - unfold bind.
    destruct (importCompany importMode company c w) as [[c1|msg] w1]; [|done].
    by rewrite IH.
Qed.

#[local] Instance appended_only_preorder : PreOrder appended_only.
Proof.
  split.
  - intros w. exists [], []. by rewrite !(right_id [] _).
  - intros w1 w2 w3 (a1 & l1 & Hd1 & Hl1 & Hf1) (a2 & l2 & Hd2 & Hl2 & Hf2).
    exists (a1 ++ a2), (l1 ++ l2).
    rewrite Hd2, Hd1, Hl2, Hl1, !app_assoc. split_and!; [done..|].
    by apply Forall_app.
Qed.

#[local] Instance truthy_fields_kept_preorder :
  PreOrder (λ w w', truthy_fields_kept (docs w) (docs w')).
Proof.
  split.
  - intros w i d key v Hi Hk _. by exists d.
  - intros w1 w2 w3 H12 H23 i d key v Hi Hk Ht.
    destruct (H12 i d key v Hi Hk Ht) as (d2 & Hi2 & Hk2).
    by apply (H23 i d2 key v).
Qed.

#[local] Instance keeps_unique_preorder : PreOrder keeps_unique.
Proof.
  split.
  - by intros w H.
  - intros w1 w2 w3 H12 H23 H. by apply H23, H12.
Qed.

(** ** The create_new frame *)

Lemma importCompany_appends_only company c w r w' :
  importCompany "create_new" company c w = (r, w') → appended_only w w'.
Proof.
  intros (issued & Hlog & Hfp & _)%importCompany_footprint.
  unfold appended_only.
  destruct Hfp as [ | e | e ds' ? ? ? ? Hds | e i d ds' ? ? ? Hmode | e i d ds' ? ? ? Hmode ].
  - exists [], []. by rewrite (right_id [] _).
  - exists [], [OFindOne e]. rewrite (right_id [] _). split_and!; [done..|].
    by repeat constructor.
  - exists (if decide (ds' = docs w) then [] else [castDoc company]),
           [OFindOne e; OCreate company].
    split_and!; [|done|by repeat constructor].
    case_decide as Hsame; [by rewrite (right_id [] _)|].
    by destruct Hds.
  - set_unfold. by destruct Hmode as [[=]|[[=]|[]]].
  - set_unfold. by destruct Hmode as [[=]|[[=]|[]]].
Qed.

(** C10. A run in mode [create_new], on any connection and whether it
    completes or throws, leaves every persisted record in place and
    unchanged: the collection afterwards is the collection before followed
    by the inserted records, and none of the calls issued is an update or
    a delete. *)
Theorem create_new_frame (companies : list obj) (w : world) :
  appended_only w (importCompanies companies "create_new" w).2 ∧
  ∀ i d, docs w !! i = Some d →
         docs (importCompanies companies "create_new" w).2 !! i = Some d.
Proof.
  assert (appended_only w (importCompanies companies "create_new" w).2) as Hrel.
  { unfold importCompanies.
    destruct (importLoop "create_new" companies _ w) as [r w'] eqn:Hrun.
    eapply (importLoop_rel appended_only); [|exact Hrun].
    intros company c w0 r0 w0'. apply importCompany_appends_only. }
  split; [done|].
  destruct Hrel as (added & issued & -> & _ & _).
  intros i d Hi. by apply lookup_app_l_Some.
Qed.

(** ** Merge-fill monotonicity *)

Lemma mergeFill_keeps_truthy (existing company : obj) key v :
  existing !! key = Some v → truthy v = true →
  (castDoc (mergeFill existing company) ∪ existing) !! key = Some v.
Proof.
  intros Hk Ht. rewrite lookup_set_union.
  destruct (mergeFill existing company !! key) as [x|] eqn:Hm; [|done].
  case_bool_decide as Hin; [|done].
  apply mergeFill_falsy_only in Hm as (_ & _ & Hf).
  rewrite (reads_truthy_declared existing key Hin), Hk in Hf.
  rewrite (truthy_castString v Ht) in Hf. discriminate Hf.
Qed.

Lemma importCompany_keeps_truthy importMode company c w r w' :
  importMode ∈ ["create_update_no_overwrite"; "update_no_overwrite"] →
  importCompany importMode company c w = (r, w') →
  truthy_fields_kept (docs w) (docs w').
Proof.
  intros Hmode (issued & _ & Hfp & _)%importCompany_footprint.
  intros j d key v Hj Hk Ht.
  destruct Hfp as [ | e | e ds' ? ? ? ? Hds | e i existing ds' ? ? Hl ? ? Hds
                  | e i existing ds' ? ? ? Hover ].
  - by exists d.
  - by exists d.
  - exists d. split; [|done].
    destruct Hds as [->| ->]; [by apply lookup_app_l_Some | done].
  - destruct Hds as [->| ->]; [|by exists d].
    apply lookup_email_Some in Hl as [Hi _].
    destruct (decide (i = j)) as [->|Hne].
    + assert (existing = d) as -> by congruence.
      exists (castDoc (mergeFill d company) ∪ d). split.
      * apply list_lookup_insert_eq. by eapply lookup_lt_Some.
      * by apply mergeFill_keeps_truthy.
    + exists d. by rewrite list_lookup_insert_ne.
  - set_unfold.
    destruct Hmode as [->|[->|[]]]; by destruct Hover as [[=]|[[=]|[]]].
Qed.

(** C8. A run under [create_update_no_overwrite] or [update_no_overwrite],
    over any input records, on any connection and whether it completes or
    throws: every field of a persisted record that held a truthy value
    before the run holds the same value after it, whatever the incoming
    records say. *)
Theorem merge_fill_monotone (importMode : string) (companies : list obj)
    (w : world) :
  importMode ∈ ["create_update_no_overwrite"; "update_no_overwrite"] →
  ∀ i d key v,
    docs w !! i = Some d → d !! key = Some v → truthy v = true →
    ∃ d', docs (importCompanies companies importMode w).2 !! i = Some d' ∧
          d' !! key = Some v.
Proof.
  intros Hmode. unfold importCompanies.
  destruct (importLoop importMode companies _ w) as [r w'] eqn:Hrun.
  change (truthy_fields_kept (docs w) (docs w')).
  eapply (importLoop_rel (λ w w', truthy_fields_kept (docs w) (docs w')));
    [|exact Hrun].
  intros company c w0 r0 w0'. by apply importCompany_keeps_truthy.
Qed.

(** ** The identity invariant *)

Lemma unique_emails_nil : unique_emails [].
Proof. intros i j d1 d2 e Hi. by rewrite lookup_nil in Hi. Qed.

Lemma unique_emails_snoc ds (d : obj) e :
  unique_emails ds → d !! "email" = Some (castString e) →
  lookup_email e ds = None →
  unique_emails (ds ++ [d]).
Proof.
  intros Hu He Hnone. unfold lookup_email in Hnone.
  rewrite list_find_None, Forall_lookup in Hnone.
  intros i j d1 d2 e' Hi Hj H1 H2 Ht.
  apply lookup_app_Some in Hi as [Hi|[Hli Hi]];
    apply lookup_app_Some in Hj as [Hj|[Hlj Hj]].
  - by eapply Hu.
  - apply list_lookup_singleton_Some in Hj as [_ <-].
    destruct (Hnone i d1 Hi). unfold has_email. congruence.
  - apply list_lookup_singleton_Some in Hi as [_ <-].
    destruct (Hnone j d2 Hj). unfold has_email. congruence.
  - apply list_lookup_singleton_Some in Hi as [Hi _].
    apply list_lookup_singleton_Some in Hj as [Hj _]. lia.
Qed.

Lemma unique_emails_insert ds i (d d' : obj) :
  unique_emails ds → ds !! i = Some d → d' !! "email" = d !! "email" →
  unique_emails (<[i := d']> ds).
Proof.
  intros Hu Hd Hsame j k d1 d2 e Hj Hk H1 H2 Ht.
  assert (∀ n x, <[i := d']> ds !! n = Some x → x !! "email" = Some e →
                 ∃ y, ds !! n = Some y ∧ y !! "email" = Some e) as Hback.
  { intros n x Hn Hx. destruct (decide (i = n)) as [->|Hne].
    - exists d. split; [done|].
      rewrite list_lookup_insert_eq in Hn by by eapply lookup_lt_Some.
      congruence.
    - exists x. by rewrite list_lookup_insert_ne in Hn. }
  destruct (Hback j d1 Hj H1) as (y1 & Hy1 & He1).
  destruct (Hback k d2 Hk H2) as (y2 & Hy2 & He2).
  by eapply Hu.
Qed.

Lemma unique_emails_delete ds i :
  unique_emails ds → unique_emails (delete i ds).
Proof.
  intros Hu j k d1 d2 e Hj Hk H1 H2 Ht.
  destruct (decide (j < i)) as [Hji|Hji]; destruct (decide (k < i)) as [Hki|Hki].
  - rewrite list_lookup_delete_lt in Hj, Hk by done. by eapply Hu.
  - rewrite list_lookup_delete_lt in Hj by done.
    rewrite list_lookup_delete_ge in Hk by lia.
    assert (j = S k) by by eapply Hu. lia.
  - rewrite list_lookup_delete_ge in Hj by lia.
    rewrite list_lookup_delete_lt in Hk by done.
    assert (S j = k) by by eapply Hu. lia.
  - rewrite list_lookup_delete_ge in Hj, Hk by lia.
    assert (S j = S k) by by eapply Hu. lia.
Qed.

Lemma importCompany_keeps_unique importMode company c w r w' :
  importCompany importMode company c w = (r, w') → keeps_unique w w'.
Proof.
  intros (issued & _ & Hfp & _)%importCompany_footprint Hu.
  destruct Hfp as [ | e | e ds' He ? Hnone ? Hds
                  | e i existing ds' ? Ht Hl ? ? Hds
                  | e i existing ds' He ? Hl ? Hds ]; try done.
  - destruct Hds as [->| ->]; [|done].
    eapply unique_emails_snoc; [done| |done]. by apply castDoc_email_Some.
  - destruct Hds as [->| ->]; [|done].
    apply lookup_email_Some in Hl as [Hi Hee].
    eapply unique_emails_insert; [done..|].
    by eapply mergeFill_keeps_email.
  - destruct Hds as [->| ->]; [|done].
    apply lookup_email_Some in Hl as [Hi Hee].
    eapply unique_emails_insert; [done..|].
    by eapply overwrite_keeps_email.
Qed.

Lemma importCompanies_keeps_unique companies importMode w :
  keeps_unique w (importCompanies companies importMode w).2.
Proof.
  unfold importCompanies.
  destruct (importLoop importMode companies _ w) as [r w'] eqn:Hrun.
  eapply (importLoop_rel keeps_unique); [|exact Hrun].
  intros company c w0 r0 w0'. apply importCompany_keeps_unique.
Qed.

Lemma handle_keeps_unique processFile (rq : request) w :
  keeps_unique w (handle processFile rq w).2.
Proof.
  destruct rq as [req| |email]; simpl.
  - unfold postImport.
    destruct (file req) as [f|]; [|done].
    destruct (importMode req) as [mode|]; [|done].
    destruct (String.eqb mode ""); [done|].
    destruct (processFile _ _) as [companies|msg]; [|done].
    pose proof (importCompanies_keeps_unique companies mode w) as Hk.
    by destruct (importCompanies companies mode w) as [[summary|msg] w'].
  - unfold getCompanies.
    destruct (find _ w) as [r w'] eqn:Hfind.
    unfold find in Hfind. apply call_inv in Hfind as [_ Hdocs].
    assert (docs w' = docs w) as Hsame
      by (destruct Hdocs as [(msg & _ & ?)|?]; by simplify_eq).
    intros Hu. destruct r; simpl; by rewrite Hsame.
  - unfold deleteCompany.
    destruct (deleteOne _ w) as [r w'] eqn:Hdel.
    unfold deleteOne in Hdel. apply call_inv in Hdel as [_ Hdocs].
    assert (unique_emails (docs w) → unique_emails (docs w')) as Hk.
    { intros Hu. destruct Hdocs as [(msg & _ & ->)|Hact]; [done|].
      destruct (lookup_email _ (docs w)) as [[i d]|];
        injection Hact as _ <-; [|done].
      by apply unique_emails_delete. }
    destruct r as [n|msg]; [destruct (n =? 0)|]; exact Hk.
Qed.

(** C7. Starting from a collection in which no two records share a
    non-empty email (the empty collection in particular), after any
    sequence of import requests, list requests and delete requests, served
    one after the other on any connection and with any parser outcomes, no
    two persisted records share a non-empty email. *)
Theorem identity_invariant (processFile : string → bool → result (list obj))
    (rs : list request) (w : world) :
  unique_emails (docs w) → unique_emails (docs (serve processFile rs w)).
Proof.
  revert w. induction rs as [|rq rest IH]; intros w Hu; simpl; [done|].
  apply IH. by apply handle_keeps_unique.
Qed.

(** ** Store failures *)

Lemma unrejected_ret {A} (a : A) : unrejected (ret a).
Proof.
  intros w a' w' [= <- <-]. exists []. rewrite (right_id [] _).
  split_and!; [done..|]. simpl. lia.
Qed.

Lemma unrejected_call {A} (o : op) (act : list obj → result A * list obj) :
  unrejected (call o act).
Proof.
  intros w a w' H. unfold call in H. exists [o].
  destruct (faults w) as [|[] fs] eqn:Hf; [|done|];
    destruct (act (docs w)) as [r ds]; simplify_eq/=;
    (split_and!; [done..|]); intros [|n] Hn; done || lia.
Qed.

Lemma unrejected_bind {A B} (m : M A) (k : A → M B) :
  unrejected m → (∀ a, unrejected (k a)) → unrejected (bind m k).
Proof.
  intros Hm Hk w b w' [(a & w1 & H1 & H2)|(msg & _ & [=])]%bind_inv.
  destruct (Hm _ _ _ H1) as (is1 & Hl1 & Hf1 & Hn1).
  destruct (Hk a _ _ _ H2) as (is2 & Hl2 & Hf2 & Hn2).
  exists (is1 ++ is2). rewrite length_app. split_and!.
  - by rewrite Hl2, Hl1, app_assoc.
  - by rewrite Hf2, Hf1, drop_drop.
  - intros n Hn. destruct (decide (n < length is1)) as [Hlt|Hge]; [by apply Hn1|].
    specialize (Hn2 (n - length is1)).
    rewrite Hf1, lookup_drop in Hn2.
    replace (length is1 + (n - length is1)) with n in Hn2 by lia.
    apply Hn2. lia.
Qed.

Lemma importCompany_unrejected importMode company c :
  unrejected (importCompany importMode company c).
Proof.
  unfold importCompany, applyMergeFill, findOne, create, updateOne.
  destruct (company !! "email") as [e|]; [|apply unrejected_ret].
  destruct (negb (truthy e)); [apply unrejected_ret|].
  apply unrejected_bind; [apply unrejected_call|]. intros existingCompany.
  repeat (match goal with |- context [String.eqb ?a ?b] =>
            destruct (String.eqb a b) end);
    try (destruct existingCompany as [existing|]);
    try (destruct (0 <? size _));
    repeat first [ apply unrejected_ret
                 | apply unrejected_call
                 | apply unrejected_bind; [|intros ?] ].
Qed.

(** An iteration one of whose calls the connection rejected throws. *)
Lemma importCompany_rejected importMode company c w r w' issued :
  importCompany importMode company c w = (r, w') →
  log w' = log w ++ issued → rejected w issued → ∃ msg, r = Err msg.
Proof.
  intros Hrun Hlog (n & Hn & Hfault). destruct r as [c'|msg]; [|by exists msg].
  destruct (importCompany_unrejected _ _ _ _ _ _ Hrun) as (is' & Hlog' & _ & Hok).
  rewrite Hlog in Hlog'. apply app_inv_head in Hlog' as <-.
  by destruct (Hok n Hn).
Qed.

(** C9. If the store rejects one of the calls that processing a record
    issues (its lookup, its insert or its update), after the records
    before it were processed, then that iteration throws, and the run over
    the whole input throws the same error in the world reached at the
    failure, whatever records follow: the collection is the one the
    earlier records left (their writes are kept, the failing record wrote
    nothing), the calls logged beyond that point are those of the failing
    record alone, and the handler answers 500 with the error's message. *)
Theorem store_failure_aborts
    (processFile : string → bool → result (list obj)) (f : upload)
    (mode : string) (pre : list obj) (company : obj) (post : list obj)
    (w w1 w2 : world) (summary : counters) (r : result counters)
    (issued : list op) :
  importCompanies pre mode w = (Ok summary, w1) →
  importCompany mode company summary w1 = (r, w2) →
  log w2 = log w1 ++ issued →
  rejected w1 issued →
  ∃ msg,
    r = Err msg ∧
    importCompanies (pre ++ company :: post) mode w = (Err msg, w2) ∧
    docs w2 = docs w1 ∧
    footprint mode company (docs w1) issued (docs w1) ∧
    (mode ≠ "" →
     processFile (path f)
       (includes (mimetype f) "excel" || includes (mimetype f) "spreadsheet") =
       Ok (pre ++ company :: post) →
     postImport processFile {| file := Some f; importMode := Some mode |} w =
       ({| status := 500; body := Message msg |}, w2)).
Proof.
  intros Hpre Hone Hissued Hrej.
  destruct (importCompany_rejected _ _ _ _ _ _ _ Hone Hissued Hrej)
    as [msg ->].
  exists msg.
  assert (importCompanies (pre ++ company :: post) mode w = (Err msg, w2))
    as Hrun.
  { unfold importCompanies in *. rewrite importLoop_app.
    rewrite (bind_ok _ _ _ _ _ Hpre). simpl.
    by rewrite (bind_err _ _ _ _ _ Hone). }
  destruct (importCompany_footprint _ _ _ _ _ _ Hone)
    as (issued' & Hlog & Hfp & Herr).
  rewrite Hissued in Hlog. apply app_inv_head in Hlog as <-.
  assert (docs w2 = docs w1) as Hdocs by (apply Herr; by exists msg).
  split_and!; [done|done|done| |].
  - by rewrite Hdocs in Hfp.
  - intros Hmode Hparse. unfold postImport. simpl.
    rewrite (proj2 (String.eqb_neq mode "") Hmode), Hparse. by rewrite Hrun.
Qed.

(** ** One iteration and one run on a healthy connection, in full *)

Lemma importCompany_outcome importMode company c w :
  healthy w →
  ∃ c' w' issued,
    importCompany importMode company c w = (Ok c', w') ∧ healthy w' ∧
    log w' = log w ++ issued ∧
    outcome importMode company (docs w) c issued (docs w') c'.
Proof.
  intros Hw. unfold importCompany.
  destruct (company !! "email") as [e|] eqn:He; cycle 1.
  { exists (skipped_incr c), w, []. rewrite (right_id [] _).
    split_and!; [done..|]. apply out_no_email. unfold truthy_at. by rewrite He. }
  destruct (truthy e) eqn:Ht; simpl; cycle 1.
  { exists (skipped_incr c), w, []. rewrite (right_id [] _).
    split_and!; [done..|]. apply out_no_email. unfold truthy_at. by rewrite He, Ht. }
  rewrite (bind_ok _ _ _ _ _ (findOne_healthy e w Hw)).
  assert (healthy (looked_up e w)) as Hw' by by apply healthy_tail.
  fold (looked_up e w).
  assert (∀ c0 : counters, ret c0 (looked_up e w) = (Ok c0, looked_up e w) ∧
            healthy (looked_up e w) ∧
            log (looked_up e w) = log w ++ [OFindOne e]) as Hret by done.
  assert (lookup_email e (docs w) = None →
    importMode ∈ ["create_new"; "create_update_no_overwrite";
                  "create_update_overwrite"] →
    ∃ c' w' issued,
      (let* _ := create company in ret (inserted_incr c)) (looked_up e w)
        = (Ok c', w') ∧ healthy w' ∧ log w' = log w ++ issued ∧
      outcome importMode company (docs w) c issued (docs w') c') as Hcreate.
  { intros Hnone Hmode.
    rewrite (bind_ok _ _ _ () _ (create_healthy company e _ Hw' He Ht Hnone)).
    eexists _, _, [OFindOne e; OCreate company]. split_and!; [done| | |].
    - by eapply healthy_step.
    - simpl. by rewrite <- app_assoc.
    - by apply out_insert. }
  assert (∀ i d, lookup_email e (docs w) = Some (i, d) →
    importMode ∈ ["create_update_no_overwrite"; "update_no_overwrite"] →
    ∃ c' w' issued,
      applyMergeFill e d company c (looked_up e w) = (Ok c', w') ∧
      healthy w' ∧ log w' = log w ++ issued ∧
      outcome importMode company (docs w) c issued (docs w') c') as Hfill.
  { intros i d Hl Hmode.
    rewrite (applyMergeFill_healthy e i d company c _ Hw' Hl Ht).
    case_decide as Hemp.
    - eexists _, _, [OFindOne e]. split_and!; [done..|].
      eapply out_skip_matched; eauto.
    - eexists _, _, [OFindOne e; OUpdateOne e (mergeFill d company)].
      split_and!; [done| | |].
      + by eapply healthy_step.
      + simpl. by rewrite <- app_assoc.
      + by apply out_fill. }
  assert (∀ i d, lookup_email e (docs w) = Some (i, d) →
    importMode ∈ ["create_update_overwrite"; "update_overwrite"] →
    ∃ c' w' issued,
      (let* _ := updateOne e company in ret (updated_incr c)) (looked_up e w)
        = (Ok c', w') ∧ healthy w' ∧ log w' = log w ++ issued ∧
      outcome importMode company (docs w) c issued (docs w') c') as Hover.
  { intros i d Hl Hmode. destruct (lookup_email_Some _ _ _ _ Hl) as [_ Hee].
    rewrite (bind_ok _ _ _ () _
      (updateOne_healthy e company i d _ Hw' Hl
         (overwrite_keeps_email d company e Hee He))).
    eexists _, _, [OFindOne e; OUpdateOne e company]. split_and!; [done| | |].
    - by eapply healthy_step.
    - simpl. by rewrite <- app_assoc.
    - by apply out_overwrite. }
  destruct (lookup_email e (docs w)) as [[i d]|] eqn:Hl; simpl;
    repeat (match goal with |- context [String.eqb ?a ?b] =>
              destruct (String.eqb_spec a b) as [->|?] end);
    first
      [ eapply Hcreate; [done|by repeat constructor]
      | eapply Hfill; [done|by repeat constructor]
      | eapply Hover; [done|by repeat constructor]
      | eexists _, _, [OFindOne e]; split_and!; [done..|];
        first [ by eapply out_skip_matched; eauto
              | eapply out_skip_unmatched; [done..|by repeat constructor]
              | eapply out_no_case; [done..|];
                unfold recognized; set_unfold; intros Hin;
                repeat (destruct Hin as [Hin|Hin]; [congruence|]); done ] ].
Qed.

Lemma importLoop_outcome importMode companies :
  ∀ c w, healthy w →
  ∃ c' w' issued,
    importLoop importMode companies c w = (Ok c', w') ∧ healthy w' ∧
    log w' = log w ++ issued ∧
    run_outcome importMode companies (docs w) c issued (docs w') c'.
Proof.
  induction companies as [|company rest IH]; intros c w Hw; simpl.
  - exists c, w, []. rewrite (right_id [] _). split_and!; [done..|]. constructor.
  - destruct (importCompany_outcome importMode company c w Hw)
      as (c1 & w1 & is1 & H1 & Hw1 & Hlog1 & Hout1).
    destruct (IH c1 w1 Hw1) as (c2 & w2 & is2 & H2 & Hw2 & Hlog2 & Hout2).
    exists c2, w2, (is1 ++ is2). rewrite (bind_ok _ _ _ _ _ H1).
    split_and!; [done..| |].
    + by rewrite Hlog2, Hlog1, app_assoc.
    + by econstructor.
Qed.

(** ** Counters against the calls and the collection *)

Lemma count_ops_app f l1 l2 :
  count_ops f (l1 ++ l2) = count_ops f l1 + count_ops f l2.
Proof. unfold count_ops. by rewrite List.filter_app, length_app. Qed.

Lemma with_email_cons company rest :
  with_email (company :: rest) =
    (if truthy_at company "email" then 1 else 0) + with_email rest.
Proof. unfold with_email. simpl. by destruct (truthy_at company "email"). Qed.

Lemma truthy_at_email (company : obj) e :
  company !! "email" = Some e → truthy e = true →
  truthy_at company "email" = true.
Proof. unfold truthy_at. by intros -> ->. Qed.

Lemma outcome_accounting importMode company ds c issued ds' c' :
  outcome importMode company ds c issued ds' c' →
  inserted c' = inserted c + count_ops is_create issued ∧
  updated c' = updated c + count_ops is_update issued ∧
  count_ops is_lookup issued = (if truthy_at company "email" then 1 else 0) ∧
  length ds' = length ds + count_ops is_create issued.
Proof.
  destruct 1 as [Hno|e He Ht|e He Ht|e i d He Ht|e i d He Ht|e i d He Ht|e He Ht];
    try rewrite (truthy_at_email _ _ He Ht); try rewrite Hno;
    unfold count_ops; simpl;
    rewrite ?length_app, ?length_insert; simpl; split_and!; lia.
Qed.

Lemma run_outcome_accounting importMode companies ds c issued ds' c' :
  run_outcome importMode companies ds c issued ds' c' →
  inserted c' = inserted c + count_ops is_create issued ∧
  updated c' = updated c + count_ops is_update issued ∧
  count_ops is_lookup issued = with_email companies ∧
  length ds' = length ds + count_ops is_create issued.
Proof.
  induction 1 as [|company rest ds c is1 ds1 c1 is2 ds2 c2 H1 _ IH].
  - unfold count_ops, with_email. simpl. split_and!; lia.
  - apply outcome_accounting in H1. rewrite !count_ops_app, with_email_cons.
    destruct H1 as (? & ? & ? & ?), IH as (? & ? & ? & ?). split_and!; lia.
Qed.

(** X1. On a connection that rejects no call, a run under any mode string
    returns counters, and they account for the calls it issued: one lookup
    per row with a usable email, [inserted] inserts and [updated] updates;
    the collection grows by exactly [inserted] documents. *)
Theorem healthy_run_accounting (companies : list obj) (importMode : string)
    (w : world) :
  healthy w →
  ∃ c w' issued,
    importCompanies companies importMode w = (Ok c, w') ∧
    log w' = log w ++ issued ∧
    count_ops is_lookup issued = with_email companies ∧
    count_ops is_create issued = inserted c ∧
    count_ops is_update issued = updated c ∧
    length (docs w') = length (docs w) + inserted c.
Proof.
  intros Hw. unfold importCompanies.
  destruct (importLoop_outcome importMode companies
              {| inserted := 0; updated := 0; skipped := 0 |} w Hw)
    as (c & w' & issued & Hrun & _ & Hlog & Hout).
  apply run_outcome_accounting in Hout as (Hi & Hu & Hl & Hlen). simpl in *.
  exists c, w', issued. split_and!; [done..| | |]; lia.
Qed.

(** ** Frames that hold on every connection *)

#[local] Instance only_lookups_preorder : PreOrder only_lookups.
Proof.
  split.
  - intros w. split; [done|]. exists []. by rewrite (right_id [] _).
  - intros w1 w2 w3 [Hd1 (l1 & Hl1 & Hf1)] [Hd2 (l2 & Hl2 & Hf2)].
    split; [congruence|]. exists (l1 ++ l2).
    rewrite Hl2, Hl1, app_assoc. split; [done|]. by apply Forall_app.
Qed.

#[local] Instance identities_kept_preorder :
  PreOrder (λ w w', identities_kept (docs w) (docs w')).
Proof.
  split.
  - intros w i d Hi. by exists d.
  - intros w1 w2 w3 H12 H23 i d Hi.
    destruct (H12 i d Hi) as (d2 & Hi2 & He2).
    destruct (H23 i d2 Hi2) as (d3 & Hi3 & He3).
    exists d3. split; [done|]. congruence.
Qed.

#[local] Instance nothing_inserted_preorder : PreOrder nothing_inserted.
Proof.
  split.
  - intros w. split; [done|]. exists []. by rewrite (right_id [] _).
  - intros w1 w2 w3 [Hd1 (l1 & Hl1 & Hf1)] [Hd2 (l2 & Hl2 & Hf2)].
    split; [congruence|]. exists (l1 ++ l2).
    rewrite Hl2, Hl1, app_assoc, count_ops_app. split; [done|]. lia.
Qed.

Lemma mode_in_creates_recognized importMode :
  importMode ∈ ["create_new"; "create_update_no_overwrite";
                "create_update_overwrite"] → recognized importMode.
Proof.
  unfold recognized. set_unfold. intros [->|[->|[->|[]]]]; auto 6.
Qed.

Lemma mode_in_fills_recognized importMode :
  importMode ∈ ["create_update_no_overwrite"; "update_no_overwrite"] →
  recognized importMode.
Proof. unfold recognized. set_unfold. intros [->|[->|[]]]; auto 6. Qed.

Lemma mode_in_overwrites_recognized importMode :
  importMode ∈ ["create_update_overwrite"; "update_overwrite"] →
  recognized importMode.
Proof. unfold recognized. set_unfold. intros [->|[->|[]]]; auto 6. Qed.

Lemma mode_in_updates_recognized importMode :
  importMode ∈ ["update_no_overwrite"; "update_overwrite"] →
  recognized importMode.
Proof. unfold recognized. set_unfold. intros [->|[->|[]]]; auto 6. Qed.

Lemma importCompany_unrecognized importMode company c w r w' :
  ¬ recognized importMode →
  importCompany importMode company c w = (r, w') → only_lookups w w'.
Proof.
  intros Hmode (issued & Hlog & Hfp & _)%importCompany_footprint.
  unfold only_lookups.
  destruct Hfp as [ | e | e ds' ? ? ? Hin | e i d ds' ? ? ? Hin | e i d ds' ? ? ? Hin ].
  - split; [done|]. exists []. by rewrite Hlog.
  - split; [done|]. exists [OFindOne e]. split; [done|]. by repeat constructor.
  - by apply mode_in_creates_recognized in Hin.
  - by apply mode_in_fills_recognized in Hin.
  - by apply mode_in_overwrites_recognized in Hin.
Qed.

Lemma run_outcome_unrecognized importMode companies ds c issued ds' c' :
  ¬ recognized importMode →
  run_outcome importMode companies ds c issued ds' c' →
  inserted c' = inserted c ∧ updated c' = updated c ∧
  skipped c' + with_email companies = skipped c + length companies.
Proof.
  intros Hmode.
  induction 1 as [|company rest ds c is1 ds1 c1 is2 ds2 c2 H1 _ IH].
  - unfold with_email. simpl. lia.
  - rewrite with_email_cons. simpl.
    destruct H1 as [Hno|e He Ht ? Hin|e He Ht ? Hin|e i d He Ht ? Hin
                   |e i d He Ht ? Hin|e i d He Ht ? Hin|e He Ht].
    + rewrite Hno. simpl in IH. lia.
    + by apply mode_in_creates_recognized in Hin.
    + by apply mode_in_updates_recognized in Hin.
    + destruct Hin as [->|[Hin _]]; [destruct Hmode; by repeat constructor|].
      by apply mode_in_fills_recognized in Hin.
    + by apply mode_in_fills_recognized in Hin.
    + by apply mode_in_overwrites_recognized in Hin.
    + rewrite (truthy_at_email _ _ He Ht). lia.
Qed.

(** X2. Under a mode string that is none of the five, a run writes
    nothing on any connection: the collection is unchanged and every call
    issued is a lookup.  If the store rejects no call, the run returns
    inserted = 0, updated = 0 and skipped = the number of rows without a
    usable email; the rows with an email are counted nowhere. *)
Theorem unrecognized_mode_run (companies : list obj) (importMode : string)
    (w : world) :
  ¬ recognized importMode →
  only_lookups w (importCompanies companies importMode w).2 ∧
  (healthy w →
   ∃ w', importCompanies companies importMode w =
           (Ok {| inserted := 0; updated := 0;
                  skipped := length companies - with_email companies |}, w')).
Proof.
  intros Hmode. split.
  - unfold importCompanies.
    destruct (importLoop importMode companies _ w) as [r w'] eqn:Hrun.
    eapply (importLoop_rel only_lookups); [|exact Hrun].
    intros company c w0 r0 w0'. by apply importCompany_unrecognized.
  - intros Hw. unfold importCompanies.
    destruct (importLoop_outcome importMode companies
                {| inserted := 0; updated := 0; skipped := 0 |} w Hw)
      as ([ci cu cs] & w' & issued & Hrun & _ & _ & Hout).
    apply run_outcome_unrecognized in Hout as (Hi & Hu & Hs); [|done].
    simpl in *. exists w'. rewrite Hrun. do 2 f_equal. f_equal; lia.
Qed.

Lemma identities_kept_insert ds i (d d' : obj) :
  ds !! i = Some d → d' !! "email" = d !! "email" →
  identities_kept ds (<[i := d']> ds).
Proof.
  intros Hi He j x Hj. destruct (decide (i = j)) as [->|Hne].
  - exists d'. split; [|congruence].
    apply list_lookup_insert_eq. by eapply lookup_lt_Some.
  - exists x. by rewrite list_lookup_insert_ne.
Qed.

Lemma importCompany_keeps_identities importMode company c w r w' :
  importCompany importMode company c w = (r, w') →
  identities_kept (docs w) (docs w').
Proof.
  intros (issued & _ & Hfp & _)%importCompany_footprint.
  destruct Hfp as [ | e | e ds' ? ? ? ? Hds | e i d ds' ? Ht Hl ? ? Hds
                  | e i d ds' He ? Hl ? Hds ].
  - intros j x Hj. by exists x.
  - intros j x Hj. by exists x.
  - intros j x Hj. exists x. split; [|done].
    destruct Hds as [->| ->]; [by apply lookup_app_l_Some|done].
  - destruct Hds as [->| ->]; [|intros j x Hj; by exists x].
    apply lookup_email_Some in Hl as [Hi Hee].
    eapply identities_kept_insert; [done|]. by eapply mergeFill_keeps_email.
  - destruct Hds as [->| ->]; [|intros j x Hj; by exists x].
    apply lookup_email_Some in Hl as [Hi Hee].
    eapply identities_kept_insert; [done|]. by eapply overwrite_keeps_email.
Qed.

(** X3. An import run, under any mode string, on any connection and
    whether it completes or throws, never removes or moves a persisted
    document and never changes its email: every document is found at the
    same position with the same [email] entry, so the collection never
    shrinks. *)
Theorem import_keeps_identities (companies : list obj) (importMode : string)
    (w : world) :
  identities_kept (docs w) (docs (importCompanies companies importMode w).2) ∧
  length (docs w) ≤ length (docs (importCompanies companies importMode w).2).
Proof.
  assert (identities_kept (docs w)
            (docs (importCompanies companies importMode w).2)) as Hk.
  { unfold importCompanies.
    destruct (importLoop importMode companies _ w) as [r w'] eqn:Hrun.
    eapply (importLoop_rel (λ w w', identities_kept (docs w) (docs w')));
      [|exact Hrun].
    intros company c w0 r0 w0'. apply importCompany_keeps_identities. }
  split; [done|].
  destruct (docs w) as [|d0 ds0] eqn:Hd using rev_ind; [simpl; lia|].
  destruct (Hk (length ds0) d0) as (d' & Hi & _).
  { by rewrite lookup_app_r, Nat.sub_diag. }
  apply lookup_lt_Some in Hi. rewrite length_app. simpl. lia.
Qed.

Lemma importCompany_update_only importMode company c w r w' :
  importMode ∈ ["update_no_overwrite"; "update_overwrite"] →
  importCompany importMode company c w = (r, w') → nothing_inserted w w'.
Proof.
  intros Hmode (issued & Hlog & Hfp & _)%importCompany_footprint.
  unfold nothing_inserted.
  destruct Hfp as [ | e | e ds' ? ? ? Hin Hds | e i d ds' ? ? ? ? ? Hds
                  | e i d ds' ? ? ? ? Hds ].
  - split; [done|]. by exists [].
  - split; [done|]. by exists [OFindOne e].
  - set_unfold.
    destruct Hmode as [->|[->|[]]]; by destruct Hin as [[=]|[[=]|[[=]|[]]]].
  - split; [|by eexists].
    destruct Hds as [->| ->]; [by rewrite length_insert|done].
  - split; [|by eexists].
    destruct Hds as [->| ->]; [by rewrite length_insert|done].
Qed.

(** X4. Under [update_no_overwrite] and [update_overwrite] a run never
    inserts, on any connection and whether it completes or throws: the
    collection keeps its size and no insert call is issued. *)
Theorem update_modes_never_insert (companies : list obj) (importMode : string)
    (w : world) :
  importMode ∈ ["update_no_overwrite"; "update_overwrite"] →
  nothing_inserted w (importCompanies companies importMode w).2.
Proof.
  intros Hmode. unfold importCompanies.
  destruct (importLoop importMode companies _ w) as [r w'] eqn:Hrun.
  eapply (importLoop_rel nothing_inserted); [|exact Hrun].
  intros company c w0 r0 w0'. by apply importCompany_update_only.
Qed.

(** ** Running the same batch again *)

Lemma lookup_email_app_Some e ds l x :
  lookup_email e ds = Some x → lookup_email e (ds ++ l) = Some x.
Proof. destruct x as [i d]. apply list_find_app_l. Qed.

Lemma lookup_email_snoc_None e ds (d : obj) :
  lookup_email e ds = None → d !! "email" = Some (castString e) →
  lookup_email e (ds ++ [d]) = Some (length ds, d).
Proof.
  intros Hnone He. unfold lookup_email in *.
  rewrite list_find_app_r by done. simpl.
  rewrite decide_True by done. done.
Qed.

Lemma lookup_email_created e ds (company : obj) :
  lookup_email e ds = None → company !! "email" = Some e →
  lookup_email e (ds ++ [castDoc company]) = Some (length ds, castDoc company).
Proof.
  intros Hnone He. apply lookup_email_snoc_None; [done|].
  by apply castDoc_email_Some.
Qed.

(** Replacing a document by one with the same [email] entry moves no
    lookup: the same position answers, with the new document if it is the
    replaced one. *)
Lemma lookup_email_insert_same e ds i (d0 d' : obj) :
  ds !! i = Some d0 → d' !! "email" = d0 !! "email" →
  lookup_email e (<[i := d']> ds) =
    (λ x : nat * obj, (x.1, if decide (x.1 = i) then d' else x.2))
      <$> lookup_email e ds.
Proof.
  intros Hi Hsame. unfold lookup_email.
  destruct (list_find (has_email (castString e)) ds) as [[j d]|] eqn:Hfind;
    simpl.
  - apply list_find_Some in Hfind as (Hj & He & Hleast).
    apply list_find_Some. split_and!.
    + case_decide as Hji.
      * subst j. apply list_lookup_insert_eq. by eapply lookup_lt_Some.
      * by rewrite list_lookup_insert_ne.
    + case_decide as Hji; [|done]. subst j.
      unfold has_email in *. congruence.
    + intros k y Hk Hlt. destruct (decide (i = k)) as [->|Hne].
      * rewrite list_lookup_insert_eq in Hk by by eapply lookup_lt_Some.
        injection Hk as <-. intros Hy. apply (Hleast k d0 Hi Hlt).
        unfold has_email in *. congruence.
      * rewrite list_lookup_insert_ne in Hk by done. by eapply Hleast.
  - apply list_find_None in Hfind. apply list_find_None.
    rewrite Forall_lookup in Hfind. apply Forall_lookup. intros k y Hk.
    destruct (decide (i = k)) as [->|Hne].
    + rewrite list_lookup_insert_eq in Hk by by eapply lookup_lt_Some.
      injection Hk as <-. intros Hy. apply (Hfind k d0 Hi).
      unfold has_email in *. congruence.
    + rewrite list_lookup_insert_ne in Hk by done. by eapply Hfind.
Qed.

(** Nothing of a change set is stored exactly when it names no path of
    the schema. *)
Lemma castDoc_empty_iff (m : obj) :
  castDoc m = ∅ ↔ ∀ key, key ∈ schema_paths → m !! key = None.
Proof.
  split.
  - intros Hemp key Hin.
    assert (castDoc m !! key = None) as Hk by by rewrite Hemp, lookup_empty.
    rewrite lookup_castDoc_declared in Hk by done.
    by destruct (m !! key).
  - intros Hnone. apply map_eq. intros key.
    rewrite lookup_empty, lookup_castDoc.
    case_bool_decide as Hin; [|done]. by rewrite (Hnone key Hin).
Qed.

(** The merge-fill of a record stores nothing exactly when every schema
    field the record offers with a truthy value reads truthy on the
    document. *)
Lemma no_gap_iff (d company : obj) :
  castDoc (mergeFill d company) = ∅ ↔
  ∀ key v, key ∈ schema_paths → company !! key = Some v → truthy v = true →
           reads_truthy d key = true.
Proof.
  rewrite castDoc_empty_iff. split.
  - intros Hnone key v Hin Hk Hv.
    destruct (reads_truthy d key) eqn:Hr; [done|].
    assert (mergeFill d company !! key = Some v) as Hm
      by by apply mergeFill_fillable.
    by rewrite (Hnone key Hin) in Hm.
  - intros Hgap key Hin.
    destruct (mergeFill d company !! key) as [v|] eqn:Hm; [|done].
    apply mergeFill_falsy_only in Hm as (Hk & Hv & Hr).
    rewrite (Hgap key v Hin Hk Hv) in Hr. discriminate Hr.
Qed.


(** What reads truthy on the existing document reads truthy after a
    merge-fill write. *)
Lemma mergeFill_grows existing company key :
  key ∈ schema_paths → reads_truthy existing key = true →
  reads_truthy (castDoc (mergeFill existing company) ∪ existing) key = true.
Proof.
  intros Hin Hr. rewrite reads_truthy_declared, lookup_set_union by done.
  destruct (mergeFill existing company !! key) as [v|] eqn:Hm.
  - apply mergeFill_falsy_only in Hm as (_ & _ & Hf). congruence.
  - by rewrite reads_truthy_declared in Hr.
Qed.

(** After a merge-fill write there is nothing left to store from the same
    record. *)
Lemma mergeFill_saturates existing company :
  castDoc (mergeFill (castDoc (mergeFill existing company) ∪ existing) company)
    = ∅.
Proof.
  apply no_gap_iff. intros key v Hin Hk Hv.
  destruct (reads_truthy existing key) eqn:Hr; [by apply mergeFill_grows|].
  assert (mergeFill existing company !! key = Some v) as Hm
    by by apply mergeFill_fillable.
  rewrite reads_truthy_declared, lookup_set_union, Hm by done.
  rewrite bool_decide_eq_true_2 by done.
  rewrite castString_idemp. by apply truthy_castString.
Qed.

Lemma mergeFill_self company : castDoc (mergeFill (castDoc company) company) = ∅.
Proof.
  apply no_gap_iff. intros key v Hin Hk Hv.
  rewrite reads_truthy_declared, lookup_castDoc_declared, Hk by done. simpl.
  rewrite castString_idemp. by apply truthy_castString.
Qed.

Lemma settled_after importMode company ds c issued ds' c' :
  importMode ∈ ["create_new"; "create_update_no_overwrite";
                "update_no_overwrite"] →
  outcome importMode company ds c issued ds' c' →
  settled importMode company ds'.
Proof.
  intros Hmode Hout. unfold settled.
  destruct Hout as [Hno|e He Ht Hl Hin|e He Ht Hl Hin|e i d He Ht Hl Hin
                   |e i d He Ht Hl Hin Hne|e i d He Ht Hl Hin|e He Ht Hin].
  - by left.
  - right. exists e. rewrite (lookup_email_created e ds company Hl He).
    split_and!; [done..|]. right. apply mergeFill_self.
  - right. exists e. rewrite Hl. split_and!; [done..|].
    set_unfold. destruct Hmode as [->|[->|[->|[]]]]; [mode_clash..|done].
  - right. exists e. rewrite Hl. split_and!; [done..|].
    destruct Hin as [->|[_ Hemp]]; [by left|right].
    rewrite Hemp. apply castDoc_empty_iff. intros key _. apply lookup_empty.
  - destruct (lookup_email_Some _ _ _ _ Hl) as [_ Hee].
    right. exists e.
    rewrite (lookup_email_insert e ds i d _ Hl
               (eq_trans (mergeFill_keeps_email d company e Hee Ht) Hee)).
    split_and!; [done..|]. right. apply mergeFill_saturates.
  - mode_clash.
  - mode_clash.
Qed.

Lemma settled_stable importMode company company' ds c issued ds' c' :
  importMode ∈ ["create_new"; "create_update_no_overwrite";
                "update_no_overwrite"] →
  settled importMode company ds →
  outcome importMode company' ds c issued ds' c' →
  settled importMode company ds'.
Proof.
  intros Hmode [Hno|(e & He & Ht & Hcond)] Hout; [by left|].
  right. exists e. split_and!; [done..|].
  destruct Hout as [Hno'|e' He' Ht' Hl' Hin|e' He' Ht' Hl' Hin
                   |e' i d He' Ht' Hl' Hin|e' i d He' Ht' Hl' Hin Hne
                   |e' i d He' Ht' Hl' Hin|e' He' Ht' Hin]; try done.
  - destruct (lookup_email e ds) as [[j ex]|] eqn:Hl.
    + by rewrite (lookup_email_app_Some e ds [castDoc company'] (j, ex) Hl).
    + subst importMode. mode_clash.
  - destruct (lookup_email_Some _ _ _ _ Hl') as [Hi Hee].
    rewrite (lookup_email_insert_same e ds i d _ Hi
               (mergeFill_keeps_email d company' e' Hee Ht')).
    destruct (lookup_email e ds) as [[j ex]|] eqn:Hl; simpl; [|done].
    case_decide as Hji; [|done]. subst j.
    apply lookup_email_Some in Hl as [Hj _].
    assert (ex = d) as -> by congruence.
    destruct Hcond as [->|Hemp]; [by left|right].
    rewrite no_gap_iff in Hemp. apply no_gap_iff. intros key v Hkey Hk Hv.
    apply mergeFill_grows; [done|]. by eapply Hemp.
  - mode_clash.
Qed.


Lemma run_keeps_settled importMode company companies ds c issued ds' c' :
  importMode ∈ ["create_new"; "create_update_no_overwrite";
                "update_no_overwrite"] →
  run_outcome importMode companies ds c issued ds' c' →
  settled importMode company ds → settled importMode company ds'.
Proof.
  intros Hmode.
  induction 1 as [|company' rest ds c is1 ds1 c1 is2 ds2 c2 H1 _ IH]; [done|].
  intros Hs. apply IH. by eapply settled_stable.
Qed.

Lemma run_settles importMode companies ds c issued ds' c' :
  importMode ∈ ["create_new"; "create_update_no_overwrite";
                "update_no_overwrite"] →
  run_outcome importMode companies ds c issued ds' c' →
  Forall (λ company, settled importMode company ds') companies.
Proof.
  intros Hmode.
  induction 1 as [|company rest ds c is1 ds1 c1 is2 ds2 c2 H1 Hrest IH];
    constructor; [|done].
  eapply run_keeps_settled; [done..|]. by eapply settled_after.
Qed.



(** ** How the combined modes decompose *)

(** X6. On any connection and for every row, [create_update_no_overwrite]
    behaves as [update_no_overwrite] when the row's email finds a document
    and as [create_new] when it does not; likewise
    [create_update_overwrite] behaves as [update_overwrite] on a match and
    as [create_new] otherwise: same result, same world. *)
Theorem combined_modes_split (company : obj) (c : counters) (w : world) :
  importCompany "create_update_no_overwrite" company c w =
    (if matched company (docs w)
     then importCompany "update_no_overwrite" company c w
     else importCompany "create_new" company c w) ∧
  importCompany "create_update_overwrite" company c w =
    (if matched company (docs w)
     then importCompany "update_overwrite" company c w
     else importCompany "create_new" company c w).
Proof.
  unfold importCompany, matched.
  destruct (company !! "email") as [e|]; [|done].
  destruct (truthy e); simpl; [|by destruct (bool_decide _)].
  unfold bind.
  destruct (findOne e w) as [[found|msg] w1] eqn:Hf;
    [|by destruct (bool_decide _)].
  apply findOne_inv in Hf as (_ & _ & Hfound).
  rewrite (Hfound found eq_refl).
  by destruct (lookup_email e (docs w)) as [[i d]|].
Qed.

(** ** Calls come in lookup-then-write order *)

Lemma lookup_then_write_app l1 l2 :
  lookup_then_write l1 → lookup_then_write l2 → lookup_then_write (l1 ++ l2).
Proof.
  induction 1 as [|e rest _ IH|e d rest He _ IH|e set rest _ IH];
    simpl; intros H2.
  - done.
  - apply ltw_lookup. auto.
  - apply ltw_create; auto.
  - apply ltw_update. auto.
Qed.

#[local] Instance writes_guarded_preorder : PreOrder writes_guarded.
Proof.
  split.
  - intros w. exists []. rewrite (right_id [] _). split; [done|constructor].
  - intros w1 w2 w3 (l1 & Hl1 & H1) (l2 & Hl2 & H2). exists (l1 ++ l2).
    rewrite Hl2, Hl1, app_assoc. split; [done|].
    by apply lookup_then_write_app.
Qed.

Lemma importCompany_writes_guarded importMode company c w r w' :
  importCompany importMode company c w = (r, w') → writes_guarded w w'.
Proof.
  intros (issued & Hlog & Hfp & _)%importCompany_footprint.
  exists issued. split; [done|].
  destruct Hfp.
  - constructor.
  - apply ltw_lookup. constructor.
  - apply ltw_create; [done|constructor].
  - apply ltw_update. constructor.
  - apply ltw_update. constructor.
Qed.

(** X7. Whatever the mode string, the rows and the connection, and
    whether the run completes or throws, the calls of an import run are
    lookups, inserts and updates only, and every insert or update comes
    immediately after the lookup of the very email it writes under: the
    engine never writes without having just looked. *)
Theorem import_writes_guarded (companies : list obj) (importMode : string)
    (w : world) :
  writes_guarded w (importCompanies companies importMode w).2.
Proof.
  unfold importCompanies.
  destruct (importLoop importMode companies _ w) as [r w'] eqn:Hrun.
  eapply (importLoop_rel writes_guarded); [|exact Hrun].
  intros company c w0 r0 w0'. apply importCompany_writes_guarded.
Qed.

(** ** Deleting by email *)

Lemma deleteOne_healthy e w :
  healthy w →
  deleteOne e w =
    (Ok (match lookup_email e (docs w) with Some _ => 1 | None => 0 end),
     {| docs := match lookup_email e (docs w) with
                | Some (i, _) => delete i (docs w)
                | None => docs w
                end;
        log := log w ++ [ODeleteOne e]; faults := tail (faults w) |}).
Proof.
  intros Hw. unfold deleteOne. rewrite call_healthy by done.
  by destruct (lookup_email e (docs w)) as [[i d]|].
Qed.

Lemma truthy_nonempty s : s ≠ "" → truthy (VStr s) = true.
Proof. intros Hs. simpl. by rewrite (proj2 (String.eqb_neq s "") Hs). Qed.

(** Under the identity invariant, removing the document an email finds
    leaves no document under that email. *)
Lemma lookup_email_delete e ds i d :
  unique_emails ds → truthy e = true → lookup_email e ds = Some (i, d) →
  lookup_email e (delete i ds) = None.
Proof.
  intros Hu Ht%truthy_castString Hl. apply lookup_email_Some in Hl as [Hi He].
  unfold lookup_email. apply list_find_None, Forall_lookup.
  intros k y Hk Hy. unfold has_email in Hy.
  destruct (decide (k < i)) as [Hlt|Hge].
  - rewrite list_lookup_delete_lt in Hk by done.
    assert (k = i) by by eapply Hu. lia.
  - rewrite list_lookup_delete_ge in Hk by lia.
    assert (S k = i) by by eapply Hu. lia.
Qed.

(** X8. Deleting by a non-empty email that finds a document, on a
    connection that rejects no call and a collection without duplicate
    emails: the answer is 200, exactly the found document is removed (the
    others keep their order), no document is left under that email, and
    deleting the same email again answers 404 and changes nothing. *)
Theorem delete_then_gone (email : string) (i : nat) (d : obj) (w : world) :
  healthy w → unique_emails (docs w) → email ≠ "" →
  lookup_email (VStr email) (docs w) = Some (i, d) →
  ∃ w1 w2,
    deleteCompany email w =
      ({| status := 200; body := Message "Company deleted successfully" |}, w1) ∧
    docs w1 = delete i (docs w) ∧
    lookup_email (VStr email) (docs w1) = None ∧
    deleteCompany email w1 =
      ({| status := 404; body := Message "Company not found" |}, w2) ∧
    docs w2 = docs w1.
Proof.
  intros Hw Hu Hs Hl.
  assert (lookup_email (VStr email) (delete i (docs w)) = None) as Hgone
    by (eapply lookup_email_delete; [done|by apply truthy_nonempty|done]).
  set (w1 := {| docs := delete i (docs w);
                log := log w ++ [ODeleteOne (VStr email)];
                faults := tail (faults w) |}).
  assert (healthy w1) as Hw1 by by eapply healthy_step.
  exists w1, {| docs := docs w1; log := log w1 ++ [ODeleteOne (VStr email)];
                faults := tail (faults w1) |}.
  unfold deleteCompany.
  rewrite (deleteOne_healthy _ w Hw), Hl.
  rewrite (deleteOne_healthy _ w1 Hw1).
  change (docs w1) with (delete i (docs w)). rewrite Hgone.
  by split_and!.
Qed.

Lemma outcome_unmatched_create importMode company ds c issued ds' c' e :
  company !! "email" = Some e → truthy e = true →
  lookup_email e ds = None →
  importMode ∈ ["create_new"; "create_update_no_overwrite";
                "create_update_overwrite"] →
  outcome importMode company ds c issued ds' c' →
  ds' = ds ++ [castDoc company] ∧ c' = inserted_incr c.
Proof.
  intros He Ht Hl Hmode Hout.
  destruct Hout as [Hno|e' He' Ht' Hl' Hin|e' He' Ht' Hl' Hin
                   |e' i d He' Ht' Hl' Hin|e' i d He' Ht' Hl' Hin Hne
                   |e' i d He' Ht' Hl' Hin|e' He' Ht' Hin];
    try (assert (e' = e) as -> by congruence); try congruence.
  - rewrite (truthy_at_email _ _ He Ht) in Hno. discriminate Hno.
  - done.
  - mode_clash.
  - apply mode_in_creates_recognized in Hmode. done.
Qed.

(** X9. Insert then delete is a round trip: on a connection that rejects
    no call, importing one row whose non-empty string email finds no
    document, under any of the three create modes, and then deleting by
    that email, answers inserted = 1 and then 200, and leaves the
    collection exactly as it was before the import. *)
Theorem import_then_delete (company : obj) (email importMode : string)
    (w : world) :
  healthy w → company !! "email" = Some (VStr email) → email ≠ "" →
  lookup_email (VStr email) (docs w) = None →
  importMode ∈ ["create_new"; "create_update_no_overwrite";
                "create_update_overwrite"] →
  ∃ w1 w2,
    importCompanies [company] importMode w =
      (Ok {| inserted := 1; updated := 0; skipped := 0 |}, w1) ∧
    deleteCompany email w1 =
      ({| status := 200; body := Message "Company deleted successfully" |}, w2) ∧
    docs w2 = docs w.
Proof.
  intros Hw He Hs Hl Hmode. unfold importCompanies.
  destruct (importLoop_outcome importMode [company]
              {| inserted := 0; updated := 0; skipped := 0 |} w Hw)
    as (c1 & w1 & is1 & Hrun & Hw1 & _ & Hout).
  inversion Hout as [|? ? ? ? ? ds1 c' ? ? ? Hone Hrest]; subst.
  inversion Hrest; subst.
  destruct (outcome_unmatched_create _ _ _ _ _ _ _ _ He
              (truthy_nonempty _ Hs) Hl Hmode Hone) as [Hd ->].
  exists w1. eexists. split; [exact Hrun|].
  unfold deleteCompany. rewrite (deleteOne_healthy _ w1 Hw1), Hd.
  rewrite (lookup_email_created _ _ _ Hl He). simpl.
  split; [done|]. rewrite delete_middle. apply (right_id [] _).
Qed.

(** ** Listing *)

(** X10. Listing is read-only on every connection: the collection is
    unchanged and exactly one call, the [find], is issued.  If the
    connection rejects that call the answer is 500 with the error's
    message; on a connection that rejects no call it is 200 with one entry
    per document, in store order, and of the fields the schema declares
    an entry holds [name], [industry], [email] and [phone] as stored and
    never [location]. *)
Theorem listing_read_only (w : world) :
  docs (getCompanies w).2 = docs w ∧
  log (getCompanies w).2 = log w ++ [OFind] ∧
  (faults w !! 0 = Some true →
   ∃ msg, (getCompanies w).1 = {| status := 500; body := Message msg |}) ∧
  (healthy w →
   ∃ companies,
     (getCompanies w).1 = {| status := 200; body := Companies companies |} ∧
     length companies = length (docs w) ∧
     ∀ i d, docs w !! i = Some d →
       ∃ d', companies !! i = Some d' ∧
             ∀ key, key ∈ schema_paths →
               d' !! key =
                 if bool_decide (key ∈ ["name"; "industry"; "email"; "phone"])
                 then d !! key else None).
Proof.
  split_and!.
  - unfold getCompanies.
    destruct (find _ w) as [r w'] eqn:Hfind.
    unfold find in Hfind. apply call_inv in Hfind as [_ Hdocs].
    assert (docs w' = docs w) as Hsame
      by (destruct Hdocs as [(msg & _ & ?)|?]; by simplify_eq).
    by destruct r.
  - unfold getCompanies.
    destruct (find _ w) as [r w'] eqn:Hfind.
    unfold find in Hfind. apply call_inv in Hfind as [Hlog _].
    by destruct r.
  - intros Hfault. unfold getCompanies, find, call.
    destruct (faults w) as [|[] fs]; [done| |by simplify_eq/=].
    by exists "store operation failed".
  - intros Hw. unfold getCompanies, find. rewrite call_healthy by done.
    simpl. eexists. split; [done|]. split; [by rewrite length_fmap|].
    intros i d Hi. eexists. rewrite list_lookup_fmap, Hi. split; [done|].
    intros key _. case_bool_decide as Hin.
    + destruct (d !! key) as [v|] eqn:Hk.
      * by apply map_lookup_filter_Some.
      * apply map_lookup_filter_None. left. done.
    + apply map_lookup_filter_None. right. intros v _. done.
Qed.

(** ** The format hint *)

Lemma prefix_spec sub s :
  String.prefix sub s = true ↔ ∃ post, s = (sub ++ post)%string.
Proof.
  revert s. induction sub as [|a sub IH]; intros s.
  - split; [intros _; by exists s|intros _; by destruct s].
  - destruct s as [|b s]; simpl; [split; [done|by intros [post [=]]]|].
    destruct (Ascii.ascii_dec a b) as [->|Hne].
    + rewrite IH. split; intros [post Hp]; exists post.
      * by rewrite Hp.
      * simpl in Hp. by injection Hp.
    + split; [done|]. intros [post Hp]. simpl in Hp. injection Hp as Hab _.
      by destruct Hne.
Qed.

(** [includes s sub] is the substring test: it holds exactly when [sub]
    occurs somewhere in [s]. *)
Lemma includes_spec (s sub : string) :
  includes s sub = true ↔ occurs_in sub s.
Proof.
  unfold occurs_in. induction s as [|a s IH].
  - unfold includes. destruct (String.prefix sub "") eqn:Hp.
    + apply prefix_spec in Hp as [post Hp]. split; [|done].
      intros _. exists "", post. exact Hp.
    + split; [done|]. intros (pre & post & Hs).
      destruct pre as [|b pre]; [|discriminate Hs].
      assert (String.prefix sub "" = true) as Hp'
        by (apply prefix_spec; by exists post).
      congruence.
  - change (includes (String a s) sub)
      with (if String.prefix sub (String a s) then true else includes s sub).
    destruct (String.prefix sub (String a s)) eqn:Hp.
    + apply prefix_spec in Hp as [post Hp]. split; [|done].
      intros _. exists "", post. exact Hp.
    + rewrite IH. split.
      * intros (pre & post & ->). by exists (String a pre), post.
      * intros (pre & post & Hs). destruct pre as [|b pre].
        -- assert (String.prefix sub (String a s) = true) as Hp'
             by (apply prefix_spec; by exists post).
           congruence.
        -- simpl in Hs. injection Hs as _ ->. by exists pre, post.
Qed.

(** X11. The import handler picks the parser by the MIME type alone: for
    an upload with a non-empty mode, the file is handed to [processFile]
    with the spreadsheet flag set exactly when [excel] or [spreadsheet]
    occurs somewhere in the MIME type (whatever the file's name or
    content), and the response is built from that parse: 500 with the
    parser's message if it fails, otherwise the outcome of the run over
    the parsed rows. *)
Theorem format_by_mimetype (processFile : string → bool → result (list obj))
    (f : upload) (mode : string) (w : world) :
  mode ≠ "" →
  ∃ isExcel : bool,
    (isExcel = true ↔
       occurs_in "excel" (mimetype f) ∨ occurs_in "spreadsheet" (mimetype f)) ∧
    postImport processFile {| file := Some f; importMode := Some mode |} w =
      match processFile (path f) isExcel with
      | Err msg => ({| status := 500; body := Message msg |}, w)
      | Ok companies =>
          match importCompanies companies mode w with
          | (Ok summary, w') => ({| status := 200; body := Success summary |}, w')
          | (Err msg, w') => ({| status := 500; body := Message msg |}, w')
          end
      end.
Proof.
  intros Hmode.
  exists (includes (mimetype f) "excel" || includes (mimetype f) "spreadsheet").
  split.
  - by rewrite orb_true_iff, !includes_spec.
  - unfold postImport. simpl.
    by rewrite (proj2 (String.eqb_neq mode "") Hmode).
Qed.

(** ** Files without usable rows *)

Lemma importLoop_no_email importMode companies :
  with_email companies = 0 →
  ∀ c w, importLoop importMode companies c w =
           (Ok {| inserted := inserted c; updated := updated c;
                  skipped := skipped c + length companies |}, w).
Proof.
  induction companies as [|company rest IH]; intros Hnone c w; simpl.
  - unfold ret. destruct c. simpl. do 3 f_equal. lia.
  - rewrite with_email_cons in Hnone.
    destruct (truthy_at company "email") eqn:Hno; [lia|].
    assert (importCompany importMode company c w = (Ok (skipped_incr c), w))
      as Hone.
    { unfold importCompany, truthy_at in *.
      destruct (company !! "email") as [e|]; [|done]. by rewrite Hno. }
    rewrite (bind_ok _ _ _ _ _ Hone), IH by lia. simpl. do 3 f_equal. lia.
Qed.

(** X12. A file that parses to rows none of which has a usable email (an
    empty file in particular) is answered 200 with inserted = 0,
    updated = 0 and skipped = the number of rows, under every non-empty
    mode string and on every connection, and no call reaches the store. *)
Theorem emailless_file (processFile : string → bool → result (list obj))
    (f : upload) (mode : string) (companies : list obj) (w : world) :
  mode ≠ "" →
  processFile (path f)
    (includes (mimetype f) "excel" || includes (mimetype f) "spreadsheet") =
    Ok companies →
  with_email companies = 0 →
  postImport processFile {| file := Some f; importMode := Some mode |} w =
    ({| status := 200;
        body := Success {| inserted := 0; updated := 0;
                           skipped := length companies |} |}, w).
Proof.
  intros Hmode Hparse Hnone. unfold postImport. simpl.
  rewrite (proj2 (String.eqb_neq mode "") Hmode), Hparse.
  unfold importCompanies. by rewrite importLoop_no_email.
Qed.

(** ** A row only touches the document of its own email *)

Lemma lookup_email_snoc_other e ds (d : obj) :
  d !! "email" ≠ Some (castString e) →
  lookup_email e (ds ++ [d]) = lookup_email e ds.
Proof.
  intros Hne. destruct (lookup_email e ds) as [x|] eqn:Hl.
  - by apply lookup_email_app_Some.
  - unfold lookup_email in *. rewrite list_find_app_r by done. simpl.
    by rewrite decide_False.
Qed.

Lemma lookup_email_insert_other e e' ds i (ex d' : obj) :
  castString e' ≠ castString e → lookup_email e' ds = Some (i, ex) →
  d' !! "email" = ex !! "email" →
  lookup_email e (<[i := d']> ds) = lookup_email e ds.
Proof.
  intros Hne Hl' Hsame. apply lookup_email_Some in Hl' as [Hi Hee].
  rewrite (lookup_email_insert_same e ds i ex d' Hi Hsame).
  destruct (lookup_email e ds) as [[j d]|] eqn:Hl; simpl; [|done].
  case_decide as Hji; [|done]. subst j.
  apply lookup_email_Some in Hl as [Hj He]. congruence.
Qed.

Lemma importCompany_other_email importMode company c w r w' e :
  castString <$> company !! "email" ≠ Some (castString e) →
  importCompany importMode company c w = (r, w') →
  lookup_email e (docs w') = lookup_email e (docs w).
Proof.
  intros Hne (issued & _ & Hfp & _)%importCompany_footprint.
  destruct Hfp as [ | e' | e' ds' He' ? ? ? Hds | e' i d ds' He' Ht' Hl ? ? Hds
                  | e' i d ds' He' ? Hl ? Hds ]; try done;
    rewrite He' in Hne; simpl in Hne.
  - destruct Hds as [->| ->]; [|done]. apply lookup_email_snoc_other.
    by rewrite (castDoc_email_Some _ _ He').
  - destruct Hds as [->| ->]; [|done].
    destruct (lookup_email_Some _ _ _ _ Hl) as [_ Hee].
    eapply lookup_email_insert_other; [|done|by eapply mergeFill_keeps_email].
    congruence.
  - destruct Hds as [->| ->]; [|done].
    destruct (lookup_email_Some _ _ _ _ Hl) as [_ Hee].
    eapply lookup_email_insert_other; [|done|by eapply overwrite_keeps_email].
    congruence.
Qed.

Lemma importLoop_other_email importMode companies e :
  Forall (λ company : obj,
            castString <$> company !! "email" ≠ Some (castString e)) companies →
  ∀ c w r w', importLoop importMode companies c w = (r, w') →
  lookup_email e (docs w') = lookup_email e (docs w).
Proof.
  induction 1 as [|company rest Hne _ IH]; intros c w r w' H; simpl in H.
  - unfold ret in H. by simplify_eq.
  - apply bind_inv in H as [(c1 & w1 & H1 & H)|(msg & H1 & _)].
    + rewrite (IH _ _ _ _ H). by eapply importCompany_other_email.
    + by eapply importCompany_other_email.
Qed.

(** X13. An import run only touches the documents its rows name: if no
    row of the batch carries the email [e], emails being compared in the
    string form the store keeps them in, then under any mode string, on
    any connection and whether the run completes or throws, a lookup of
    [e] finds after the run exactly what it found before (the same
    document at the same position, or nothing). *)
Theorem import_frame_by_email (companies : list obj) (importMode : string)
    (e : value) (w : world) :
  Forall (λ company : obj,
            castString <$> company !! "email" ≠ Some (castString e)) companies →
  lookup_email e (docs (importCompanies companies importMode w).2) =
    lookup_email e (docs w).
Proof.
  intros Hall. unfold importCompanies.
  destruct (importLoop importMode companies _ w) as [r w'] eqn:Hrun.
  by eapply importLoop_other_email.
Qed.

(** ** The last row for an email decides what an overwrite stores *)

Lemma outcome_overwrite_provides importMode company ds c issued ds' c' e :
  importMode ∈ ["create_update_overwrite"; "update_overwrite"] →
  company !! "email" = Some e → truthy e = true →
  outcome importMode company ds c issued ds' c' →
  ∀ i d, lookup_email e ds' = Some (i, d) → provides company d.
Proof.
  intros Hmode He Ht Hout.
  destruct Hout as [Hno|e' He' Ht' Hl' Hin|e' He' Ht' Hl' Hin
                   |e' j ex He' Ht' Hl' Hin|e' j ex He' Ht' Hl' Hin Hne
                   |e' j ex He' Ht' Hl' Hin|e' He' Ht' Hin];
    try (assert (e' = e) as -> by congruence).
  - rewrite (truthy_at_email _ _ He Ht) in Hno. discriminate Hno.
  - rewrite (lookup_email_created e ds company Hl' He).
    intros i d [= <- <-] key v Hkey Hk.
    by rewrite lookup_castDoc_declared, Hk.
  - rewrite Hl'. by intros i d.
  - destruct Hin as [->|[Hin _]]; mode_clash.
  - mode_clash.
  - destruct (lookup_email_Some _ _ _ _ Hl') as [_ Hee].
    rewrite (lookup_email_insert e ds j ex (castDoc company ∪ ex) Hl'
               (eq_trans (overwrite_keeps_email ex company e Hee He) Hee)).
    intros i d [= <- <-] key v Hkey Hk.
    by rewrite lookup_set_union, Hk, bool_decide_eq_true_2.
  - apply mode_in_overwrites_recognized in Hmode. done.
Qed.

(** X14. Last row wins under the overwrite modes: on a connection that
    rejects no call, if a row with a usable email [e] is followed in the
    batch only by rows with other emails (or none), emails being compared
    in the string form the store keeps them in, then after the run the
    document found under [e], if there is one, stores every schema field
    of that row with the string form of the row's value. *)
Theorem overwrite_last_row_wins (pre post : list obj) (company : obj)
    (importMode : string) (e : value) (w : world) :
  healthy w →
  importMode ∈ ["create_update_overwrite"; "update_overwrite"] →
  company !! "email" = Some e → truthy e = true →
  Forall (λ later : obj,
            castString <$> later !! "email" ≠ Some (castString e)) post →
  ∀ i d,
    lookup_email e
      (docs (importCompanies (pre ++ company :: post) importMode w).2)
      = Some (i, d) →
    provides company d.
Proof.
  intros Hw Hmode He Ht Hpost i d. unfold importCompanies.
  rewrite importLoop_app.
  destruct (importLoop_outcome importMode pre
              {| inserted := 0; updated := 0; skipped := 0 |} w Hw)
    as (c1 & w1 & is1 & Hrun1 & Hw1 & _ & _).
  rewrite (bind_ok _ _ _ _ _ Hrun1). simpl.
  destruct (importCompany_outcome importMode company c1 w1 Hw1)
    as (c2 & w2 & is2 & Hrun2 & Hw2 & _ & Hout).
  rewrite (bind_ok _ _ _ _ _ Hrun2).
  destruct (importLoop importMode post c2 w2) as [r w3] eqn:Hrun3.
  cbn [snd].
  rewrite (importLoop_other_email importMode post e Hpost _ _ _ _ Hrun3).
  by eapply outcome_overwrite_provides.
Qed.

(** ** What a completed run guarantees about its own rows *)

(** X15. Merge-fill leaves no gap it could have filled: after a run
    under [create_update_no_overwrite] or [update_no_overwrite] on a
    connection that rejects no call, for every row of the batch with a
    usable email and the document found under that email (if any), every
    schema field the row offers with a truthy value reads truthy on the
    document. *)
Theorem merge_fill_complete (companies : list obj) (importMode : string)
    (w : world) (company : obj) (e : value) (i : nat) (d : obj) :
  healthy w →
  importMode ∈ ["create_update_no_overwrite"; "update_no_overwrite"] →
  company ∈ companies →
  company !! "email" = Some e → truthy e = true →
  lookup_email e (docs (importCompanies companies importMode w).2)
    = Some (i, d) →
  ∀ key v, key ∈ schema_paths → company !! key = Some v → truthy v = true →
           reads_truthy d key = true.
Proof.
  intros Hw Hmode Hin He Ht. unfold importCompanies.
  destruct (importLoop_outcome importMode companies
              {| inserted := 0; updated := 0; skipped := 0 |} w Hw)
    as (c1 & w1 & is1 & Hrun & _ & _ & Hout).
  rewrite Hrun. cbn [snd]. intros Hl key v Hkey Hk Hv.
  apply run_settles in Hout; [|set_unfold; tauto].
  rewrite Forall_forall in Hout.
  destruct (Hout company Hin) as [Hno|(e' & He' & _ & Hcond)].
  { rewrite (truthy_at_email _ _ He Ht) in Hno. discriminate Hno. }
  assert (e' = e) as -> by congruence. rewrite Hl in Hcond.
  destruct Hcond as [->|Hemp]; [mode_clash|].
  rewrite no_gap_iff in Hemp. by eapply Hemp.
Qed.

Lemma identities_kept_found e ds ds' :
  identities_kept ds ds' →
  is_Some (lookup_email e ds) → is_Some (lookup_email e ds').
Proof.
  intros Hk [[i d] Hl]. apply lookup_email_Some in Hl as [Hi He].
  destruct (Hk i d Hi) as (d' & Hi' & He').
  unfold lookup_email. apply (list_find_elem_of _ _ d').
  - by eapply list_elem_of_lookup_2.
  - unfold has_email. congruence.
Qed.

Lemma outcome_create_found importMode company ds c issued ds' c' e :
  importMode ∈ ["create_new"; "create_update_no_overwrite";
                "create_update_overwrite"] →
  company !! "email" = Some e → truthy e = true →
  outcome importMode company ds c issued ds' c' →
  is_Some (lookup_email e ds').
Proof.
  intros Hmode He Ht Hout.
  destruct Hout as [Hno|e' He' Ht' Hl' Hin|e' He' Ht' Hl' Hin
                   |e' j ex He' Ht' Hl' Hin|e' j ex He' Ht' Hl' Hin Hne
                   |e' j ex He' Ht' Hl' Hin|e' He' Ht' Hin];
    try (assert (e' = e) as -> by congruence).
  - rewrite (truthy_at_email _ _ He Ht) in Hno. discriminate Hno.
  - rewrite (lookup_email_created e ds company Hl' He). by eexists.
  - mode_clash.
  - rewrite Hl'. by eexists.
  - destruct (lookup_email_Some _ _ _ _ Hl') as [_ Hee].
    rewrite (lookup_email_insert e ds j ex _ Hl'
               (eq_trans (mergeFill_keeps_email ex company e Hee Ht) Hee)).
    by eexists.
  - destruct (lookup_email_Some _ _ _ _ Hl') as [_ Hee].
    rewrite (lookup_email_insert e ds j ex (castDoc company ∪ ex) Hl'
               (eq_trans (overwrite_keeps_email ex company e Hee He) Hee)).
    by eexists.
  - apply mode_in_creates_recognized in Hmode. done.
Qed.

(** X16. After a run under one of the three create modes on a connection
    that rejects no call, every row of the batch that has a usable email
    finds a document under that email. *)
Theorem create_modes_make_findable (companies : list obj)
    (importMode : string) (w : world) (company : obj) (e : value) :
  healthy w →
  importMode ∈ ["create_new"; "create_update_no_overwrite";
                "create_update_overwrite"] →
  company ∈ companies →
  company !! "email" = Some e → truthy e = true →
  is_Some (lookup_email e (docs (importCompanies companies importMode w).2)).
Proof.
  intros Hw Hmode Hin He Ht.
  apply list_elem_of_split in Hin as (pre & post & ->).
  unfold importCompanies. rewrite importLoop_app.
  destruct (importLoop_outcome importMode pre
              {| inserted := 0; updated := 0; skipped := 0 |} w Hw)
    as (c1 & w1 & is1 & Hrun1 & Hw1 & _ & _).
  rewrite (bind_ok _ _ _ _ _ Hrun1). simpl.
  destruct (importCompany_outcome importMode company c1 w1 Hw1)
    as (c2 & w2 & is2 & Hrun2 & Hw2 & _ & Hout).
  rewrite (bind_ok _ _ _ _ _ Hrun2).
  destruct (importLoop importMode post c2 w2) as [r w3] eqn:Hrun3.
  cbn [snd].
  eapply (identities_kept_found e (docs w2)).
  - eapply (importLoop_rel (λ w w', identities_kept (docs w) (docs w')));
      [|exact Hrun3].
    intros company' c w0 r0 w0'. apply importCompany_keeps_identities.
  - by eapply outcome_create_found.
Qed.

(** ** What create_new stores *)

Lemma run_outcome_create_new companies ds c issued ds' c' :
  run_outcome "create_new" companies ds c issued ds' c' →
  ∃ added, ds' = ds ++ (castDoc <$> added) ∧ sublist added companies ∧
           inserted c' = inserted c + length added ∧
           updated c' = updated c.
Proof.
  induction 1 as [|company rest ds c is1 ds1 c1 is2 ds2 c2 H1 _ IH].
  - exists []. rewrite (right_id [] _). split_and!; [done..|simpl; lia|done].
  - destruct IH as (added & -> & Hsub & Hi & Hu).
    destruct H1 as [Hno|e He Ht Hl Hin|e He Ht Hl Hin|e i d He Ht Hl Hin
                   |e i d He Ht Hl Hin Hne|e i d He Ht Hl Hin|e He Ht Hin].
    + exists added. split_and!; [done|by apply sublist_cons|done..].
    + exists (company :: added). rewrite fmap_cons, <- app_assoc.
      split_and!; [done|by apply sublist_skip|simpl in *; lia|done].
    + mode_clash.
    + exists added. split_and!; [done|by apply sublist_cons|done..].
    + mode_clash.
    + mode_clash.
    + destruct Hin. by repeat constructor.
Qed.

(** X17. Under [create_new], on a connection that rejects no call, the
    collection after the run is the collection before followed by rows of
    the file in file order (a subsequence of the batch), each stored in
    the form the schema gives it: its schema fields only, as strings;
    their number is the [inserted] counter, and [updated] is 0. *)
Theorem create_new_stores_rows (companies : list obj) (w : world) :
  healthy w →
  ∃ c w' added,
    importCompanies companies "create_new" w = (Ok c, w') ∧
    docs w' = docs w ++ (castDoc <$> added) ∧ sublist added companies ∧
    inserted c = length added ∧ updated c = 0.
Proof.
  intros Hw. unfold importCompanies.
  destruct (importLoop_outcome "create_new" companies
              {| inserted := 0; updated := 0; skipped := 0 |} w Hw)
    as (c & w' & issued & Hrun & _ & _ & Hout).
  apply run_outcome_create_new in Hout as (added & Hd & Hsub & Hi & Hu).
  by exists c, w', added.
Qed.

(** ** Names of stored uploads *)

Lemma dashless_digits d : dashless (NilEmpty.string_of_uint d) = true.
Proof. induction d; simpl; auto. Qed.

Lemma dash_split (a b s1 s2 : string) :
  dashless a = true → dashless b = true →
  (a ++ "-" ++ s1)%string = (b ++ "-" ++ s2)%string → a = b ∧ s1 = s2.
Proof.
  revert b. induction a as [|c a IH]; intros [|c' b] Ha Hb Heq; simpl in *.
  - by injection Heq.
  - injection Heq as <- _. fold dash in Hb. by rewrite Ascii.eqb_refl in Hb.
  - injection Heq as -> _. fold dash in Ha. by rewrite Ascii.eqb_refl in Ha.
  - injection Heq as -> Heq.
    apply andb_prop in Ha as [_ Ha]. apply andb_prop in Hb as [_ Hb].
    destruct (IH b Ha Hb Heq) as [-> ->]. done.
Qed.

Lemma decimal_inj n1 n2 : decimal n1 = decimal n2 → n1 = n2.
Proof.
  unfold decimal. intros Heq. apply DecimalN.Unsigned.to_uint_inj.
  apply (f_equal NilEmpty.uint_of_string) in Heq.
  rewrite !NilEmpty.usu in Heq. by injection Heq.
Qed.

(** X18. Two uploads are stored under the same file name exactly when
    they have the same original name and arrive at the same clock
    reading: the stored name determines both the time stamp and the
    original name. *)
Theorem filename_injective (now1 now2 : N) (name1 name2 : string) :
  filename now1 name1 = filename now2 name2 ↔ now1 = now2 ∧ name1 = name2.
Proof.
  split; [|by intros [-> ->]].
  unfold filename. intros Heq.
  apply dash_split in Heq as [Hd ->]; [|apply dashless_digits..].
  by apply decimal_inj in Hd as ->.
Qed.


End Verification.

(** ** The statements at concrete inputs *)

#[local] Existing Instance sampleDocument.

Example includes_excel :
  includes "application/vnd.ms-excel" "excel" = true ∧
  includes "application/vnd.openxmlformats-officedocument.spreadsheetml.sheet"
    "spreadsheet" = true ∧
  includes "text/csv" "excel" || includes "text/csv" "spreadsheet" = false.
Proof. vm_compute. by split_and!. Qed.

Example scenario_A :
  importCompanies [rowA] "create_new" (fresh []) =
    (Ok {| inserted := 1; updated := 0; skipped := 0 |},
     {| docs := [rowA]; log := [OFindOne (VStr "a@x.com"); OCreate rowA];
        faults := [] |}).
Proof. vm_compute. reflexivity. Qed.

Example scenario_B :
  let '(r, w) :=
    importCompanies [rowB] "create_update_no_overwrite" (fresh [storedB]) in
  r = Ok {| inserted := 0; updated := 1; skipped := 0 |} ∧
  docs w = [ {[ "email" := VStr "a@x.com"; "name" := VStr "A";
               "industry" := VStr "Tech" ]} ].
Proof. vm_compute. split; reflexivity. Qed.

Example scenario_C :
  let '(r, w) := importCompanies [rowB] "update_overwrite" (fresh [storedB]) in
  r = Ok {| inserted := 0; updated := 1; skipped := 0 |} ∧ docs w = [rowB].
Proof. vm_compute. split; reflexivity. Qed.

Example scenario_D :
  importCompanies [rowD] "update_overwrite" (fresh [storedB]) =
    (Ok {| inserted := 0; updated := 0; skipped := 1 |}, fresh [storedB]).
Proof. vm_compute. reflexivity. Qed.

Example scenario_E :
  (deleteCompany "missing@x.com" (fresh [])).1 =
    {| status := 404; body := Message "Company not found" |}.
Proof. vm_compute. reflexivity. Qed.

Lemma missing_email_skipped_witness :
  importCompany "create_new" rowD
    {| inserted := 0; updated := 0; skipped := 0 |} (fresh [storedB]) =
    (Ok {| inserted := 0; updated := 0; skipped := 1 |}, fresh [storedB]).
Proof.
  apply (missing_email_skipped "create_new" rowD
           {| inserted := 0; updated := 0; skipped := 0 |} (fresh [storedB])).
  vm_compute. reflexivity.
Defined.

Lemma unmatched_policy_witness :
  ∃ stored : obj,
    importCompany "create_update_overwrite" rowNum zero (fresh [rowC]) =
      (Ok {| inserted := 1; updated := 0; skipped := 0 |},
       {| docs := [rowC; stored];
          log := [OFindOne (VStr "a@x.com"); OCreate rowNum];
          faults := [] |}) ∧
    ∀ key, stored !! key =
             if bool_decide (key ∈ schema_paths)
             then castString <$> rowNum !! key else None.
Proof.
  refine (proj1 (proj1 (unmatched_policy "create_update_overwrite" rowNum
    (VStr "a@x.com") zero (fresh [rowC]) _ _ _) _) _).
  - vm_compute. constructor.
  - vm_compute. reflexivity.
  - reflexivity.
  - vm_compute. reflexivity.
  - repeat constructor.
Defined.

(** C1, counterexample.  A column the schema does not declare ([website])
    is present and truthy in the incoming row and missing on the matched
    document, yet after the import the document has no such field: the
    [$set] is issued and the row counted as updated, but the store keeps
    schema fields only. *)
Lemma undeclared_column_not_set : ¬ merge_fill_sets_every_gap.
Proof.
  intros H.
  destruct (H "update_no_overwrite" rowWeb (VStr "a@x.com") 0 storedB zero
              (fresh [storedB])
              ltac:(vm_compute; constructor) ltac:(vm_compute; reflexivity)
              ltac:(reflexivity) ltac:(vm_compute; reflexivity)
              ltac:(repeat constructor)
              "website" (VStr "x.com")
              ltac:(vm_compute; reflexivity) ltac:(reflexivity)
              ltac:(vm_compute; reflexivity))
    as (d' & Hd & [v Hv]).
  vm_compute in Hd. injection Hd as <-. vm_compute in Hv. discriminate Hv.
Qed.

Lemma merge_fill_policy_witness :
  ((∀ key v, ¬ fillable storedB rowB key v) ∧
   importCompany "create_update_no_overwrite" rowB zero (fresh [storedB]) =
     (Ok {| inserted := inserted zero; updated := updated zero;
            skipped := S (skipped zero) |},
      looked_up (VStr "a@x.com") (fresh [storedB])))
  ∨
  ((∃ key v, fillable storedB rowB key v) ∧
   ∃ update merged : obj,
     importCompany "create_update_no_overwrite" rowB zero (fresh [storedB]) =
       (Ok {| inserted := inserted zero; updated := S (updated zero);
              skipped := skipped zero |},
        {| docs := <[0 := merged]> (docs (fresh [storedB]));
           log := log (fresh [storedB])
                  ++ [OFindOne (VStr "a@x.com");
                      OUpdateOne (VStr "a@x.com") update];
           faults := tail (tail (faults (fresh [storedB]))) |}) ∧
     (∀ key v, update !! key = Some v ↔ fillable storedB rowB key v) ∧
     (∀ key, merged !! key =
               match update !! key with
               | Some v =>
                   if bool_decide (key ∈ schema_paths)
                   then Some (castString v) else storedB !! key
               | None => storedB !! key
               end) ∧
     lookup_email (VStr "a@x.com") (<[0 := merged]> (docs (fresh [storedB]))) =
       Some (0, merged)).
Proof.
  apply (merge_fill_policy "create_update_no_overwrite" rowB (VStr "a@x.com")
           0 storedB zero (fresh [storedB])).
  - vm_compute. constructor.
  - vm_compute. reflexivity.
  - reflexivity.
  - vm_compute. reflexivity.
  - repeat constructor.
Defined.

(** C2, counterexample.  The incoming row provides [website], a column
    the schema does not declare: the overwrite is issued and counted, and
    the stored document has no [website] field afterwards, so the provided
    field does not equal the stored value. *)
Lemma undeclared_column_not_overwritten : ¬ overwrite_stores_row_as_given.
Proof.
  intros H.
  destruct (H "update_overwrite" rowWeb (VStr "a@x.com") 0 storedB zero
              (fresh [storedB])
              ltac:(vm_compute; constructor) ltac:(vm_compute; reflexivity)
              ltac:(reflexivity) ltac:(vm_compute; reflexivity)
              ltac:(repeat constructor)
              "website" (VStr "x.com") ltac:(vm_compute; reflexivity))
    as (d' & Hd & Hv).
  vm_compute in Hd. injection Hd as <-. vm_compute in Hv. discriminate Hv.
Qed.

Lemma overwrite_policy_witness :
  ∃ merged : obj,
    importCompany "update_overwrite" rowNum zero (fresh [storedB]) =
      (Ok {| inserted := inserted zero; updated := S (updated zero);
             skipped := skipped zero |},
       {| docs := <[0 := merged]> (docs (fresh [storedB]));
          log := log (fresh [storedB])
                 ++ [OFindOne (VStr "a@x.com");
                     OUpdateOne (VStr "a@x.com") rowNum];
          faults := tail (tail (faults (fresh [storedB]))) |}) ∧
    (∀ key v, key ∈ schema_paths → rowNum !! key = Some v →
              merged !! key = Some (castString v)) ∧
    (∀ key, key ∉ schema_paths ∨ rowNum !! key = None →
            merged !! key = storedB !! key) ∧
    lookup_email (VStr "a@x.com") (<[0 := merged]> (docs (fresh [storedB]))) =
      Some (0, merged).
Proof.
  apply (overwrite_policy "update_overwrite" rowNum (VStr "a@x.com")
           0 storedB zero (fresh [storedB])).
  - vm_compute. constructor.
  - vm_compute. reflexivity.
  - reflexivity.
  - vm_compute. reflexivity.
  - repeat constructor.
Defined.

(** C6, counterexample.  The switch has no default case: under a mode
    string that matches none of the five cases, a record with an email is
    looked up and then counted nowhere. *)
Lemma unrecognized_mode_loses_count : ¬ counters_conserved_for_any_mode.
Proof.
  intros H.
  specialize (H [rowA] "create" (fresh [])
    {| docs := []; log := [OFindOne (VStr "a@x.com")]; faults := [] |} zero).
  assert (total zero = length [rowA]) as Hbad by (apply H; vm_compute; reflexivity).
  vm_compute in Hbad. discriminate.
Qed.

Lemma counter_conservation_witness :
  (∀ c w', importCompanies [rowA; rowD; rowB] "create_update_no_overwrite"
             (fresh [storedB]) = (Ok c, w') →
           inserted c + updated c + skipped c = length [rowA; rowD; rowB]) ∧
  (healthy (fresh [storedB]) →
   ∃ c w', importCompanies [rowA; rowD; rowB] "create_update_no_overwrite"
             (fresh [storedB]) = (Ok c, w')).
Proof.
  apply (counter_conservation [rowA; rowD; rowB] "create_update_no_overwrite"
           (fresh [storedB])).
  repeat constructor.
Defined.

(** C5, counterexample.  The handler only tests [!importMode]: the mode
    string [create], which is none of the five, is passed on; the run
    looks the record up and answers 200 with all counters at zero. *)
Lemma unrecognized_mode_accepted : ¬ rejects_unusable_requests.
Proof.
  intros H.
  destruct (H (λ _ _, Ok [rowA])
              {| file := Some csvUpload; importMode := Some "create" |}
              (fresh [])) as [[Hstatus _] _].
  - right; right. exists "create". split; [done|].
    unfold recognized. set_unfold. intros Hin.
    repeat (destruct Hin as [Hin|Hin]; [discriminate Hin|]). done.
  - vm_compute in Hstatus. lia.
Qed.

Lemma import_validation_witness :
  postImport (λ _ _, Ok [rowA])
    {| file := Some csvUpload; importMode := Some "" |} (fresh [storedB]) =
    ({| status := 400; body := Message "Import mode is required" |},
     fresh [storedB]).
Proof.
  apply (import_validation (λ _ _, Ok [rowA])
           {| file := Some csvUpload; importMode := Some "" |} (fresh [storedB])).
  right; right. reflexivity.
Defined.

Lemma merge_fill_monotone_witness :
  ∃ d', docs (importCompanies [rowB] "update_no_overwrite"
                (fresh [storedB])).2 !! 0 = Some d' ∧
        d' !! "industry" = Some (VStr "Tech").
Proof.
  apply (merge_fill_monotone "update_no_overwrite" [rowB] (fresh [storedB])
           ltac:(repeat constructor) 0 storedB "industry" (VStr "Tech")).
  - reflexivity.
  - vm_compute. reflexivity.
  - reflexivity.
Defined.

Lemma identity_invariant_witness :
  unique_emails
    (docs (serve (λ _ _, Ok [rowA; rowB; rowD])
             [PostImport {| file := Some csvUpload;
                            importMode := Some "create_new" |};
              PostImport {| file := Some csvUpload;
                            importMode := Some "update_overwrite" |};
              GetCompanies;
              DeleteCompany "a@x.com"]
             (fresh []))).
Proof.
  apply (identity_invariant (λ _ _, Ok [rowA; rowB; rowD])
           [PostImport {| file := Some csvUpload;
                          importMode := Some "create_new" |};
            PostImport {| file := Some csvUpload;
                          importMode := Some "update_overwrite" |};
            GetCompanies;
            DeleteCompany "a@x.com"]
           (fresh [])).
  simpl. intros i j d1 d2 e Hi. rewrite lookup_nil in Hi. discriminate Hi.
Defined.

Lemma store_failure_aborts_witness :
  ∃ msg,
    importCompanies ([rowA] ++ rowC :: [rowD; rowB]) "create_new" failing_fourth =
      (Err msg,
       {| docs := [rowA];
          log := [OFindOne (VStr "a@x.com"); OCreate rowA;
                  OFindOne (VStr "c@x.com"); OCreate rowC];
          faults := [] |}).
Proof.
  destruct (store_failure_aborts (λ _ _, Ok []) csvUpload "create_new"
    [rowA] rowC [rowD; rowB] failing_fourth
    {| docs := [rowA]; log := [OFindOne (VStr "a@x.com"); OCreate rowA];
       faults := [false; true] |}
    {| docs := [rowA];
       log := [OFindOne (VStr "a@x.com"); OCreate rowA;
               OFindOne (VStr "c@x.com"); OCreate rowC];
       faults := [] |}
    {| inserted := 1; updated := 0; skipped := 0 |}
    (Err "store operation failed")
    [OFindOne (VStr "c@x.com"); OCreate rowC]
    ltac:(vm_compute; reflexivity) ltac:(vm_compute; reflexivity)
    ltac:(reflexivity)
    ltac:(exists 1; split; [simpl; lia|reflexivity]))
    as (msg & _ & Hrun & _).
  exists msg. exact Hrun.
Defined.

Lemma healthy_run_accounting_witness :
  ∃ c w' issued,
    importCompanies [rowA; rowD; rowC] "create_update_overwrite"
      (fresh [storedB]) = (Ok c, w') ∧
    log w' = log (fresh [storedB]) ++ issued ∧
    count_ops is_lookup issued = with_email [rowA; rowD; rowC] ∧
    count_ops is_create issued = inserted c ∧
    count_ops is_update issued = updated c ∧
    length (docs w') = length (docs (fresh [storedB])) + inserted c.
Proof.
  apply (healthy_run_accounting [rowA; rowD; rowC] "create_update_overwrite"
           (fresh [storedB])).
  vm_compute. constructor.
Defined.

Lemma unrecognized_mode_run_witness :
  only_lookups (fresh [storedB])
    (importCompanies [rowA; rowD; rowC] "CREATE_NEW" (fresh [storedB])).2 ∧
  (healthy (fresh [storedB]) →
   ∃ w', importCompanies [rowA; rowD; rowC] "CREATE_NEW" (fresh [storedB]) =
           (Ok {| inserted := 0; updated := 0;
                  skipped := length [rowA; rowD; rowC]
                             - with_email [rowA; rowD; rowC] |}, w')).
Proof.
  apply (unrecognized_mode_run [rowA; rowD; rowC] "CREATE_NEW" (fresh [storedB])).
  unfold recognized. set_unfold. intros Hin.
  repeat (destruct Hin as [Hin|Hin]; [discriminate Hin|]). exact Hin.
Defined.

Lemma update_modes_never_insert_witness :
  nothing_inserted (fresh [storedB])
    (importCompanies [rowA; rowC; rowD] "update_overwrite" (fresh [storedB])).2.
Proof.
  apply (update_modes_never_insert [rowA; rowC; rowD] "update_overwrite"
           (fresh [storedB])).
  repeat constructor.
Defined.


Lemma delete_then_gone_witness :
  ∃ w1 w2,
    deleteCompany "a@x.com" (fresh [rowC; storedB]) =
      ({| status := 200; body := Message "Company deleted successfully" |}, w1) ∧
    docs w1 = delete 1 (docs (fresh [rowC; storedB])) ∧
    lookup_email (VStr "a@x.com") (docs w1) = None ∧
    deleteCompany "a@x.com" w1 =
      ({| status := 404; body := Message "Company not found" |}, w2) ∧
    docs w2 = docs w1.
Proof.
  apply (delete_then_gone "a@x.com" 1 storedB (fresh [rowC; storedB])).
  - vm_compute. constructor.
  - intros [|[|i]] [|[|j]] d1 d2 e Hi Hj H1 H2 _; simpl in Hi, Hj;
      try discriminate; try reflexivity;
      injection Hi as <-; injection Hj as <-;
      vm_compute in H1, H2; congruence.
  - discriminate.
  - vm_compute. reflexivity.
Defined.

Lemma import_then_delete_witness :
  ∃ w1 w2,
    importCompanies [rowC] "create_new" (fresh [storedB]) =
      (Ok {| inserted := 1; updated := 0; skipped := 0 |}, w1) ∧
    deleteCompany "c@x.com" w1 =
      ({| status := 200; body := Message "Company deleted successfully" |}, w2) ∧
    docs w2 = docs (fresh [storedB]).
Proof.
  apply (import_then_delete rowC "c@x.com" "create_new" (fresh [storedB])).
  - vm_compute. constructor.
  - vm_compute. reflexivity.
  - discriminate.
  - vm_compute. reflexivity.
  - repeat constructor.
Defined.

Lemma emailless_file_witness :
  postImport (λ _ _, Ok [rowD; rowD])
    {| file := Some csvUpload; importMode := Some "update_overwrite" |}
    failing_fourth =
    ({| status := 200;
        body := Success {| inserted := 0; updated := 0;
                           skipped := length [rowD; rowD] |} |},
     failing_fourth).
Proof.
  apply (emailless_file (λ _ _, Ok [rowD; rowD]) csvUpload "update_overwrite"
           [rowD; rowD] failing_fourth).
  - discriminate.
  - reflexivity.
  - vm_compute. reflexivity.
Defined.

Lemma import_frame_by_email_witness :
  lookup_email (VStr "a@x.com")
    (docs (importCompanies [rowC; rowD] "create_update_overwrite"
             (fresh [storedB])).2) =
    lookup_email (VStr "a@x.com") (docs (fresh [storedB])).
Proof.
  apply (import_frame_by_email [rowC; rowD] "create_update_overwrite"
           (VStr "a@x.com") (fresh [storedB])).
  repeat constructor; vm_compute; discriminate.
Defined.

Lemma overwrite_last_row_wins_witness :
  provides rowB2
    {[ "email" := VStr "a@x.com"; "name" := VStr "A2"; "phone" := VStr "555";
       "industry" := VStr "Retail" ]}.
Proof.
  apply (overwrite_last_row_wins [rowB] [rowC; rowD] rowB2
           "create_update_overwrite" (VStr "a@x.com") (fresh [])
           ltac:(vm_compute; constructor) ltac:(repeat constructor)
           ltac:(vm_compute; reflexivity) ltac:(reflexivity)
           ltac:(repeat constructor; vm_compute; discriminate) 0).
  vm_compute. reflexivity.
Defined.

Lemma merge_fill_complete_witness :
  reads_truthy
    {[ "email" := VStr "a@x.com"; "name" := VStr "A2";
       "phone" := VStr "555"; "industry" := VStr "Tech" ]} "phone" = true.
Proof.
  apply (merge_fill_complete [rowB2; rowC; rowB] "update_no_overwrite"
           (fresh [storedB]) rowB2 (VStr "a@x.com") 0
           {[ "email" := VStr "a@x.com"; "name" := VStr "A2";
              "phone" := VStr "555"; "industry" := VStr "Tech" ]}
           ltac:(vm_compute; constructor) ltac:(repeat constructor)
           ltac:(repeat constructor) ltac:(vm_compute; reflexivity)
           ltac:(reflexivity) ltac:(vm_compute; reflexivity)
           "phone" (VStr "555")).
  - vm_compute. set_unfold. tauto.
  - vm_compute. reflexivity.
  - reflexivity.
Defined.

Lemma create_modes_make_findable_witness :
  is_Some (lookup_email (VStr "c@x.com")
             (docs (importCompanies [rowA; rowC; rowD] "create_new"
                      (fresh [storedB])).2)).
Proof.
  apply (create_modes_make_findable [rowA; rowC; rowD] "create_new"
           (fresh [storedB]) rowC (VStr "c@x.com")).
  - vm_compute. constructor.
  - repeat constructor.
  - repeat constructor.
  - vm_compute. reflexivity.
  - reflexivity.
Defined.

Lemma create_new_stores_rows_witness :
  ∃ c w' added,
    importCompanies [rowA; rowD; rowWeb; rowC] "create_new" (fresh [storedB]) =
      (Ok c, w') ∧
    docs w' = docs (fresh [storedB]) ++ (castDoc <$> added) ∧
    sublist added [rowA; rowD; rowWeb; rowC] ∧
    inserted c = length added ∧ updated c = 0.
Proof.
  apply (create_new_stores_rows [rowA; rowD; rowWeb; rowC] (fresh [storedB])).
  vm_compute. constructor.
Defined.

Lemma format_by_mimetype_witness :
  ∃ isExcel : bool,
    (isExcel = true ↔
       occurs_in "excel" (mimetype csvUpload)
       ∨ occurs_in "spreadsheet" (mimetype csvUpload)) ∧
    postImport (λ _ isExcel, if isExcel then Err "not a workbook" else Ok [rowD])
      {| file := Some csvUpload; importMode := Some "create_new" |} (fresh []) =
      match (if isExcel then Err "not a workbook" else Ok [rowD]) with
      | Err msg => ({| status := 500; body := Message msg |}, fresh [])
      | Ok companies =>
          match importCompanies companies "create_new" (fresh []) with
          | (Ok summary, w') => ({| status := 200; body := Success summary |}, w')
          | (Err msg, w') => ({| status := 500; body := Message msg |}, w')
          end
      end.
Proof.
  apply (format_by_mimetype
           (λ _ isExcel, if isExcel then Err "not a workbook" else Ok [rowD])
           csvUpload "create_new" (fresh [])).
  discriminate.
Defined.

(** A numeric cell is stored as a string; a column named [id] reads
    truthy on every document, so merge-fill never puts it in the change
    set. *)
Example numeric_cell_stored_as_string :
  docs (importCompany "create_new" rowNum zero (fresh [])).2 =
    [ {[ "email" := VStr "a@x.com"; "phone" := VStr "5551234" ]} ].
Proof. vm_compute. reflexivity. Qed.

(** A rejected update makes the iteration throw: both calls are logged,
    nothing is written and no counters are returned. *)
Example rejected_update_throws :
  importCompany "update_overwrite" rowB zero (failing_write [storedB]) =
    (Err "store operation failed",
     {| docs := [storedB];
        log := [OFindOne (VStr "a@x.com"); OUpdateOne (VStr "a@x.com") rowB];
        faults := [] |}).
Proof. vm_compute. reflexivity. Qed.

Example id_column_never_filled :
  importCompany "update_no_overwrite" rowId zero (fresh [storedB]) =
    (Ok {| inserted := 0; updated := 0; skipped := 1 |},
     looked_up (VStr "a@x.com") (fresh [storedB])).
Proof. vm_compute. reflexivity. Qed.

Example filename_sample :
  filename 1700000000000 "a.csv" = "1700000000000-a.csv".
Proof. vm_compute. reflexivity. Qed.
